(** * Pulsar canvas animation: a shallow embedding of [CanvasComp.tsx]

    The component draws an audio-reactive sphere with orbiting arcs.  This
    file embeds the numeric core of [src/components/CanvasComp.tsx] (band
    synthesis, position update, colour cycling, the throttled frame driver
    and its teardown) and the wave-point sampler of the later wave-arc
    variant of the same component.

    Modelling conventions.
    - A JavaScript [number] is an ideal real ([R]): finite, never NaN, with
      exact arithmetic.  The code computes in doubles, so a sum or a
      rescaled vector can differ from the ideal value in the last places;
      statements about a sharp numeric limit carry a relative tolerance of
      10^-12 for that, and no statement equates two differently computed
      sums.  [Math.sin], [Math.cos], [Math.sqrt], [Math.abs],
      [Math.min], [Math.max] are [sin], [cos], [sqrt], [Rabs], [Rmin],
      [Rmax]; [Math.floor] is [Int_part].
    - Integer-valued numbers (loop counters, scheduler handles, array
      indices) are [nat] or [Z]; the remainder operator [%] is [Z.rem].
    - [Math.random()] is an explicit argument, one per call site.
    - An object literal is an association list in property order, so that
      [Object.keys] is [map fst].
    - Mutable refs are fields of an explicit state record; functions that
      mutate their argument return the new value. *)

From Stdlib Require Import Reals Lra Lia ZArith List Ascii String Bool.
Import ListNotations.

Open Scope R_scope.

(** ** Data model *)

Inductive AgentState : Type :=
  | disconnected
  | connecting
  | initializing
  | listening
  | thinking
  | speaking.

Definition AgentState_eqb (a b : AgentState) : bool :=
  match a, b with
  | disconnected, disconnected
  | connecting, connecting
  | initializing, initializing
  | listening, listening
  | thinking, thinking
  | speaking, speaking => true
  | _, _ => false
  end.

(** The string each enumeration value is at run time. *)
Definition AgentState_key (s : AgentState) : string :=
  match s with
  | disconnected => "disconnected"
  | connecting => "connecting"
  | initializing => "initializing"
  | listening => "listening"
  | thinking => "thinking"
  | speaking => "speaking"
  end.

Record AudioBands : Type := mkBands {
  low : R;
  mid : R;
  high : R;
  transient : R
}.

(** ** Band synthesis

    [rnd] is the value [Math.random()] returns in the branch taken. *)

Definition simulateAudioBands
    (audioLevel : R) (state : AgentState) (time : R) (rnd : R) : AudioBands :=
  let absLevel := Rabs audioLevel in
  if AgentState_eqb state speaking then
    {| low := absLevel * (0.7 + 0.3 * sin (time * 0.002));
       mid := absLevel * (0.5 + 0.5 * sin (time * 0.005));
       high := absLevel * (0.8 + 0.2 * sin (time * 0.01));
       transient := absLevel * (if Rlt_dec 0.8 rnd then 1.5 else 0.1) |}
  else if AgentState_eqb state listening then
    {| low := absLevel * (0.4 + 0.3 * sin (time * 0.002));
       mid := absLevel * (0.7 + 0.3 * sin (time * 0.005));
       high := absLevel * (0.5 + 0.2 * sin (time * 0.01));
       transient := absLevel * (if Rlt_dec 0.7 rnd then 1.2 else 0.1) |}
  else
    {| low := absLevel * (0.3 + 0.2 * sin (time * 0.001));
       mid := absLevel * (0.3 + 0.2 * sin (time * 0.003));
       high := absLevel * (0.3 + 0.2 * sin (time * 0.005));
       transient := absLevel * (if Rlt_dec 0.9 rnd then 0.8 else 0.1) |}.

(** ** Objects and the palette table *)

Definition JSObject (V : Type) : Type := list (string * V).

(** [o[k]]; [None] is [undefined]. *)
Fixpoint get {V : Type} (o : JSObject V) (k : string) : option V :=
  match o with
  | [] => None
  | (k', v) :: rest => if String.eqb k' k then Some v else get rest k
  end.

Definition Object_keys {V : Type} (o : JSObject V) : list string :=
  map fst o.

Definition ColorPalette : Type := JSObject string.

Definition statePalettes : JSObject ColorPalette :=
  [ ("disconnected",
      [ ("primary", "#D3E4FD"); ("secondary", "#9b87f5");
        ("tertiary", "#E5DEFF"); ("accent", "#8B5CF6");
        ("highlight", "#FFDEE2") ]);
    ("connecting",
      [ ("primary", "#D3E4FD"); ("secondary", "#7E69AB");
        ("tertiary", "#E5DEFF"); ("accent", "#8B5CF6");
        ("highlight", "#FFDEE2") ]);
    ("initializing",
      [ ("primary", "#D3E4FD"); ("secondary", "#6E59A5");
        ("tertiary", "#E5DEFF"); ("accent", "#9b87f5");
        ("highlight", "#FFDEE2") ]);
    ("listening",
      [ ("primary", "#D3E4FD"); ("secondary", "#D946EF");
        ("tertiary", "#E5DEFF"); ("accent", "#8B5CF6");
        ("highlight", "#FFDEE2") ]);
    ("thinking",
      [ ("primary", "#D3E4FD"); ("secondary", "#0EA5E9");
        ("tertiary", "#D6BCFA"); ("accent", "#33C3F0");
        ("highlight", "#FFDEE2") ]);
    ("speaking",
      [ ("primary", "#D3E4FD"); ("secondary", "#1EAEDB");
        ("tertiary", "#D6BCFA"); ("accent", "#0FA0CE");
        ("highlight", "#FFDEE2") ]) ]%string.

(** The five keys of the [ColorPalette] interface, in declaration order. *)
Definition ColorPalette_keys : list string :=
  ["primary"; "secondary"; "tertiary"; "accent"; "highlight"]%string.

(** [statePalettes[state]]. *)
Definition lookupPalette (state : AgentState) : option ColorPalette :=
  get statePalettes (AgentState_key state).

(** The palette the frame driver hands to the drawing routines.  The table
    is total on [AgentState] ([lookupPalette_defined] below), so the empty
    default is never taken. *)
Definition paletteFor (state : AgentState) : ColorPalette :=
  match lookupPalette state with
  | Some colors => colors
  | None => []
  end.

(** ** Sphere configuration, [CanvasComp.tsx] *)

Record SphereConfig : Type := mkSphereConfig {
  baseRadius : R;
  maxExtraRadius : R;
  arcCount : nat;
  arcWidth : R;
  rotation : R;
  distortion : R;
  velocityX : R;
  velocityY : R;
  x : R;
  y : R
}.

Record Position : Type := mkPosition { pos_x : R; pos_y : R }.

(** The value [sphereConfigRef] is created with. *)
Definition initialSphereConfig (size : R) : SphereConfig :=
  {| baseRadius := size * 0.35;
     maxExtraRadius := size * 0.1;
     arcCount := 3;
     arcWidth := size * 0.03;
     rotation := 0;
     distortion := 0;
     velocityX := 0;
     velocityY := 0;
     x := 0;
     y := 0 |}.

(** ** Position update

    [size] is the component prop the closure captures; [rnd_x] and [rnd_y]
    are the two [Math.random()] draws.  The mutated configuration is
    returned together with the draw position. *)

Definition movementFactor (bands : AudioBands) : R :=
  transient bands * 2 + mid bands * 1.5.

Definition maxVelocity (bands : AudioBands) : R :=
  0.5 + movementFactor bands * 0.5.

Definition updateSpherePosition
    (size : R) (config : SphereConfig) (centerX centerY : R)
    (bands : AudioBands) (deltaTime : R) (rnd_x rnd_y : R)
  : SphereConfig * Position :=
  let ax := (rnd_x - 0.5) * 0.01 * movementFactor bands in
  let ay := (rnd_y - 0.5) * 0.01 * movementFactor bands in
  (* velocity += acceleration, then damping *)
  let vx1 := (velocityX config + ax) * 0.95 in
  let vy1 := (velocityY config + ay) * 0.95 in
  (* velocity clamp *)
  let magnitude := sqrt (vx1 * vx1 + vy1 * vy1) in
  let vx2 :=
    if Rlt_dec (maxVelocity bands) magnitude
    then (vx1 / magnitude) * maxVelocity bands else vx1 in
  let vy2 :=
    if Rlt_dec (maxVelocity bands) magnitude
    then (vy1 / magnitude) * maxVelocity bands else vy1 in
  (* position += velocity, then clamp *)
  let x1 := x config + vx2 * deltaTime * 0.1 in
  let y1 := y config + vy2 * deltaTime * 0.1 in
  let maxDisplacement := size * 0.05 in
  let x2 := Rmax (Rmin x1 maxDisplacement) (- maxDisplacement) in
  let y2 := Rmax (Rmin y1 maxDisplacement) (- maxDisplacement) in
  ({| baseRadius := baseRadius config;
      maxExtraRadius := maxExtraRadius config;
      arcCount := arcCount config;
      arcWidth := arcWidth config;
      rotation := rotation config;
      distortion := distortion config;
      velocityX := vx2;
      velocityY := vy2;
      x := x2;
      y := y2 |},
   {| pos_x := centerX + x2; pos_y := centerY + y2 |}).

(** One call of [updateSpherePosition] with everything it reads. *)
Record PositionTick : Type := mkPositionTick {
  tick_centerX : R;
  tick_centerY : R;
  tick_bands : AudioBands;
  tick_deltaTime : R;
  tick_rnd_x : R;
  tick_rnd_y : R
}.

Definition positionStep (size : R) (config : SphereConfig) (t : PositionTick)
  : SphereConfig :=
  fst (updateSpherePosition size config (tick_centerX t) (tick_centerY t)
         (tick_bands t) (tick_deltaTime t) (tick_rnd_x t) (tick_rnd_y t)).

(** Successive calls on the same configuration object. *)
Definition positionRun (size : R) (config : SphereConfig)
    (ticks : list PositionTick) : SphereConfig :=
  fold_left (positionStep size) ticks config.

(** ** Drawing routines

    The 2D context is write-only for this component, so a drawing routine
    is embedded as the list of strokes and fills it issues. *)

Inductive CanvasOp : Type :=
  | ClearRect (width height : R)
  | FillSphere (centerX centerY radius gradientRadius : R)
      (stops : list (R * option string))
  | StrokeRim (alpha lineWidth : R) (color : option string)
  | StrokeArc (alpha centerX centerY radius startAngle endAngle width : R)
      (color : option string) (shadowBlur : R).

(** [color + suffix] for a colour read from the palette. *)
Definition withAlpha (color : option string) (suffix : string)
  : option string :=
  option_map (fun c => (c ++ suffix)%string) color.

(** The colour stops [createRadialGradient] adds, and its outer radius. *)
Definition createRadialGradient
    (radius : R) (colors : ColorPalette) (bands : AudioBands)
  : R * list (R * option string) :=
  (radius * (1 + low bands * 0.3),
   [ (0, get colors "primary");
     (0.4, withAlpha (get colors "secondary") "CC");
     (0.7, withAlpha (get colors "tertiary") "99");
     (1, withAlpha (get colors "accent") "33") ]).

Definition drawArc
    (alpha centerX centerY radius startAngle endAngle width : R)
    (color : option string) (glow : bool) : CanvasOp :=
  StrokeArc alpha centerX centerY radius startAngle endAngle width color
    (if glow then width * 1.5 else 0).

Definition drawMainSphere
    (centerX centerY : R) (config : SphereConfig) (colors : ColorPalette)
    (bands : AudioBands) (time : R) : list CanvasOp :=
  let pulseFactor := sin (time * 0.002) * 0.15 + 0.85 in
  let radius := baseRadius config * (1 + low bands * 0.4) * pulseFactor in
  let gradient := createRadialGradient (radius * 1.2) colors bands in
  [ FillSphere centerX centerY radius (fst gradient) (snd gradient);
    StrokeRim (0.3 + high bands * 0.4) (1 + transient bands * 3)
      (get colors "highlight") ].

(** [(i + Math.floor(colorCycleRef.current)) % Object.keys(colors).length] *)
Definition colorIndex (colors : ColorPalette) (i : Z) (colorCycle : R) : Z :=
  Z.rem (i + Int_part colorCycle) (Z.of_nat (List.length (Object_keys colors))).

(** [Object.keys(colors)[colorIndex]]; an index outside the array reads
    [undefined]. *)
Definition colorKey (colors : ColorPalette) (index : Z) : option string :=
  if (index <? 0)%Z then None
  else nth_error (Object_keys colors) (Z.to_nat index).

(** [colors[colorKey]] *)
Definition arcColor (colors : ColorPalette) (i : Z) (colorCycle : R)
  : option string :=
  match colorKey colors (colorIndex colors i colorCycle) with
  | Some key => get colors key
  | None => None
  end.

(** The two strokes of arc number [i]. *)
Definition orbitalArc
    (centerX centerY : R) (config : SphereConfig) (colors : ColorPalette)
    (bands : AudioBands) (time colorCycle : R) (i : nat) : list CanvasOp :=
  let distortionFactor := 1 + mid bands * 0.25 in
  let baseRotation :=
    rotation config + (INR i * PI * 2 / INR (arcCount config)) in
  let orbitalRadius :=
    baseRadius config * (1.2 + INR i * 0.15 + low bands * 0.1)
    * distortionFactor in
  let arcWidth' :=
    arcWidth config * (0.6 + INR i * 0.2) * (1 + high bands * 0.4) in
  let segmentLength :=
    PI * (0.5 + transient bands * 0.3 + sin (time * 0.001 + INR i) * 0.2) in
  let startAngle := baseRotation + sin (time * 0.0015) * 0.2 in
  let endAngle := startAngle + segmentLength in
  let color := arcColor colors (Z.of_nat i) colorCycle in
  let alpha := 0.7 + transient bands * 0.3 in
  let oppositeStartAngle := startAngle + PI in
  let oppositeEndAngle := oppositeStartAngle + segmentLength * 0.8 in
  [ drawArc alpha centerX centerY orbitalRadius startAngle endAngle
      arcWidth' color true;
    drawArc alpha centerX centerY (orbitalRadius * 0.95) oppositeStartAngle
      oppositeEndAngle (arcWidth' * 0.8) color true ].

Definition drawOrbitalArcs
    (centerX centerY : R) (config : SphereConfig) (colors : ColorPalette)
    (bands : AudioBands) (time colorCycle : R) : list CanvasOp :=
  flat_map (orbitalArc centerX centerY config colors bands time colorCycle)
    (seq 0 (arcCount config)).

(** ** Frame driver *)

Record Props : Type := mkProps {
  size : R;
  state : AgentState;
  audioLevel : R
}.

(** The refs and the closure variable [lastFrameTime], with what the host
    has been asked to do: the frames painted (newest first) and the handles
    passed to [cancelAnimationFrame] (newest first). *)
Record Driver : Type := mkDriver {
  animationRef : Z;
  lastFrameTime : R;
  timeRef : R;
  colorCycleRef : R;
  audioBandsRef : AudioBands;
  sphereConfigRef : SphereConfig;
  frames : list (list CanvasOp);
  cancelled : list Z
}.

(** What one invocation of the callback gets from the host: its timestamp,
    the canvas dimensions when a 2D context is available, the three random
    draws, and the handle [requestAnimationFrame] returns. *)
Record Invocation : Type := mkInvocation {
  timestamp : R;
  context : option (R * R);
  rnd_band : R;
  rnd_ax : R;
  rnd_ay : R;
  next_handle : Z
}.

Definition frameInterval : R := 1000 / 30.

(** The refs at mount, with [lastFrameTime = performance.now()]. *)
Definition initialDriver (p : Props) (now : R) : Driver :=
  {| animationRef := 0;
     lastFrameTime := now;
     timeRef := 0;
     colorCycleRef := 0;
     audioBandsRef := {| low := 0; mid := 0; high := 0; transient := 0 |};
     sphereConfigRef := initialSphereConfig (size p);
     frames := [];
     cancelled := [] |}.

(** The effect body: [animationRef.current = requestAnimationFrame(animate)]. *)
Definition startAnimation (s : Driver) (handle : Z) : Driver :=
  {| animationRef := handle;
     lastFrameTime := lastFrameTime s;
     timeRef := timeRef s;
     colorCycleRef := colorCycleRef s;
     audioBandsRef := audioBandsRef s;
     sphereConfigRef := sphereConfigRef s;
     frames := frames s;
     cancelled := cancelled s |}.

(** The effect cleanup. *)
Definition teardown (s : Driver) : Driver :=
  if negb (animationRef s =? 0)%Z then
    {| animationRef := 0;
       lastFrameTime := lastFrameTime s;
       timeRef := timeRef s;
       colorCycleRef := colorCycleRef s;
       audioBandsRef := audioBandsRef s;
       sphereConfigRef := sphereConfigRef s;
       frames := frames s;
       cancelled := animationRef s :: cancelled s |}
  else s.

(** The draw body of [animate], entered with a 2D context of the given
    dimensions. *)
Definition drawFrame
    (p : Props) (s : Driver) (inv : Invocation) (width height : R) : Driver :=
  let deltaTime := timestamp inv - lastFrameTime s in
  let time := timeRef s + deltaTime in
  let colorCycle := colorCycleRef s + deltaTime * 0.0001 in
  let bands := simulateAudioBands (audioLevel p) (state p) time (rnd_band inv) in
  let centerX := width / 2 in
  let centerY := height / 2 in
  let config := sphereConfigRef s in
  let rotated :=
    {| baseRadius := baseRadius config;
       maxExtraRadius := maxExtraRadius config;
       arcCount := arcCount config;
       arcWidth := arcWidth config;
       rotation := rotation config + 0.005 * (1 + mid bands * 0.7);
       distortion := high bands * 0.3;
       velocityX := velocityX config;
       velocityY := velocityY config;
       x := x config;
       y := y config |} in
  let moved :=
    updateSpherePosition (size p) rotated centerX centerY bands deltaTime
      (rnd_ax inv) (rnd_ay inv) in
  let config' := fst moved in
  let position := snd moved in
  let colorPalette := paletteFor (state p) in
  let ops :=
    ClearRect width height
    :: drawMainSphere (pos_x position) (pos_y position) config' colorPalette
         bands time
    ++ drawOrbitalArcs (pos_x position) (pos_y position) config' colorPalette
         bands time colorCycle in
  {| animationRef := animationRef s;
     lastFrameTime := timestamp inv;
     timeRef := time;
     colorCycleRef := colorCycle;
     audioBandsRef := bands;
     sphereConfigRef := config';
     frames := ops :: frames s;
     cancelled := cancelled s |}.

(** [animationRef.current = requestAnimationFrame(animate)] at the end of
    the callback. *)
Definition reschedule (s : Driver) (inv : Invocation) : Driver :=
  startAnimation s (next_handle inv).

Definition animate (p : Props) (s : Driver) (inv : Invocation) : Driver :=
  if (animationRef s =? 0)%Z then s
  else if Rle_dec frameInterval (timestamp inv - lastFrameTime s) then
    match context inv with
    | None => s
    | Some (width, height) => reschedule (drawFrame p s inv width height) inv
    end
  else reschedule s inv.

(** The callback invoked once per element of [invs], in order. *)
Definition run (p : Props) (s : Driver) (invs : list Invocation) : Driver :=
  fold_left (animate p) invs s.

(** Whether an invocation painted a frame. *)
Definition painted (s s' : Driver) : bool :=
  (List.length (frames s) <? List.length (frames s'))%nat.

(** The timestamps of the invocations of a run that painted a frame. *)
Fixpoint drawnTimestamps (p : Props) (s : Driver) (invs : list Invocation)
  : list R :=
  match invs with
  | [] => []
  | inv :: rest =>
      let s' := animate p s inv in
      (if painted s s' then [timestamp inv] else [])
      ++ drawnTimestamps p s' rest
  end.

(** Consecutive painted timestamps, each at least [frameInterval] after
    the one before; [last] is the timestamp before the first. *)
Fixpoint spacedFrom (last : R) (ts : list R) : Prop :=
  match ts with
  | [] => True
  | t :: rest => frameInterval <= t - last /\ spacedFrom t rest
  end.

(** Membership in the half-open window of length [frameInterval] that
    starts at [windowStart]. *)
Definition inWindow (windowStart t : R) : bool :=
  if Rle_dec windowStart t then
    if Rlt_dec t (windowStart + frameInterval) then true else false
  else false.

Definition drawsInWindow (windowStart : R) (ts : list R) : nat :=
  List.length (filter (inWindow windowStart) ts).

(** ** Well-formed colours

    A palette entry is defined when it is a [#RRGGBB] string. *)

Definition is_hex_digit (c : Ascii.ascii) : bool :=
  let n := Ascii.nat_of_ascii c in
  ((48 <=? n) && (n <=? 57) || (65 <=? n) && (n <=? 70)
   || (97 <=? n) && (n <=? 102))%nat.

Fixpoint all_hex (s : string) : bool :=
  match s with
  | EmptyString => true
  | String c rest => is_hex_digit c && all_hex rest
  end.

Definition is_hex_color (s : string) : bool :=
  match s with
  | String c rest =>
      Ascii.eqb c "#"%char && (String.length rest =? 6)%nat && all_hex rest
  | EmptyString => false
  end.

(** ** Wave-arc variant of the component *)

Module WaveArc.

Record SphereConfig : Type := mkSphereConfig {
  baseRadius : R;
  maxExtraRadius : R;
  arcCount : nat;
  arcWidth : R;
  rotation : R;
  distortion : R;
  velocityX : R;
  velocityY : R;
  x : R;
  y : R;
  blurAmount : R;
  waveFactor : R;
  wavePeriod : R;
  waveSpeed : R
}.

Definition steps : nat := 30.

(** The point pushed at loop index [i]. *)
Definition wavePoint
    (centerX centerY radius startAngle endAngle : R) (config : SphereConfig)
    (time : R) (bands : AudioBands) (i : nat) : Position :=
  let waveFactor' := waveFactor config * (1 + high bands * 0.5) in
  let wavePeriod' := wavePeriod config * (1 - mid bands * 0.3) in
  let waveSpeed' := waveSpeed config * (1 + mid bands * 0.5) in
  let angle := startAngle + ((endAngle - startAngle) * INR i / INR steps) in
  let waveOffset :=
    sin (angle * wavePeriod' + time * waveSpeed') * waveFactor' * radius
    * (1 + high bands * 0.3) in
  let waveRadius := radius + waveOffset in
  {| pos_x := centerX + cos angle * waveRadius;
     pos_y := centerY + sin angle * waveRadius |}.

(** [for (let i = 0; i <= steps; i++) points.push(...)] *)
Definition calculateWavePoints
    (centerX centerY radius startAngle endAngle : R) (config : SphereConfig)
    (time : R) (bands : AudioBands) : list Position :=
  map (wavePoint centerX centerY radius startAngle endAngle config time bands)
    (seq 0 (S steps)).

(** The path [drawWaveArc] traces through the sampled points: a move to
    the first point, a quadratic curve through each interior point to the
    midpoint with its successor, and a last curve through the point before
    last to the last point. *)
Inductive PathCmd : Type :=
  | MoveTo (target : Position)
  | QuadraticCurveTo (control target : Position).

Definition midpoint (a b : Position) : Position :=
  {| pos_x := (pos_x a + pos_x b) / 2; pos_y := (pos_y a + pos_y b) / 2 |}.

Definition smoothPath (points : list Position) : list PathCmd :=
  match points with
  | [] => []
  | first :: _ =>
      let n := List.length points in
      MoveTo first
      :: map (fun i =>
                QuadraticCurveTo (nth i points first)
                  (midpoint (nth i points first) (nth (S i) points first)))
           (seq 1 (n - 3))
      ++ (if (2 <? n)%nat
          then [QuadraticCurveTo (nth (n - 2) points first)
                  (nth (n - 1) points first)]
          else [])
  end.

(** Where a path command leaves the pen. *)
Definition target (cmd : PathCmd) : Position :=
  match cmd with
  | MoveTo t => t
  | QuadraticCurveTo _ t => t
  end.

(** One stroke of [drawWaveArc]; [shadowBlur] is the blur it sets for the
    stroke, when asked to blur. *)
Record WaveStroke : Type := mkWaveStroke {
  lineWidth : R;
  strokeStyle : option string;
  shadowBlur : option R;
  path : list PathCmd
}.

Definition drawWaveArc
    (centerX centerY radius startAngle endAngle width : R)
    (color : option string) (config : SphereConfig) (time : R)
    (bands : AudioBands) (blur : bool) : WaveStroke :=
  {| lineWidth := width;
     strokeStyle := color;
     shadowBlur :=
       if blur then Some (blurAmount config * (0.5 + mid bands * 0.5))
       else None;
     path :=
       smoothPath
         (calculateWavePoints centerX centerY radius startAngle endAngle
            config time bands) |}.

(** The value [animate] gives [blurAmount] on every painted frame. *)
Definition animatedBlur (time : R) : R := 5 + 10 * sin (time * 0.0005).

End WaveArc.

(** ** Reading painted frames *)

Definition defined {A : Type} (o : option A) : bool :=
  match o with
  | Some _ => true
  | None => false
  end.

(** Every colour the command hands to the context is a defined string. *)
Definition colored (op : CanvasOp) : bool :=
  match op with
  | ClearRect _ _ => true
  | FillSphere _ _ _ _ stops => forallb (fun stop => defined (snd stop)) stops
  | StrokeRim _ _ color => defined color
  | StrokeArc _ _ _ _ _ _ _ color _ => defined color
  end.

(** An arc stroke that runs forward from its start angle, with a
    non-negative radius and width. *)
Definition forwardArc (op : CanvasOp) : Prop :=
  match op with
  | StrokeArc _ _ _ radius startAngle endAngle width _ _ =>
      startAngle < endAngle /\ 0 <= radius /\ 0 <= width
  | _ => False
  end.

(** The disc of a [FillSphere] lies inside a canvas of the given side. *)
Definition discInside (side : R) (op : CanvasOp) : Prop :=
  match op with
  | FillSphere centerX centerY radius _ _ =>
      0 <= radius /\
      0 <= centerX - radius /\ centerX + radius <= side /\
      0 <= centerY - radius /\ centerY + radius <= side
  | _ => True
  end.

(** ** Re-renders with another size

    The effect that depends on [size] replaces the configuration by a copy
    with the three lengths derived from the new size.  The canvas, sized
    once, and the running callback, which closed over the props of its own
    render, keep the size of the mount. *)

Definition resizeConfig (size : R) (config : SphereConfig) : SphereConfig :=
  {| baseRadius := size * 0.35;
     maxExtraRadius := size * 0.1;
     arcCount := arcCount config;
     arcWidth := size * 0.03;
     rotation := rotation config;
     distortion := distortion config;
     velocityX := velocityX config;
     velocityY := velocityY config;
     x := x config;
     y := y config |}.

Definition resize (size : R) (s : Driver) : Driver :=
  {| animationRef := animationRef s;
     lastFrameTime := lastFrameTime s;
     timeRef := timeRef s;
     colorCycleRef := colorCycleRef s;
     audioBandsRef := audioBandsRef s;
     sphereConfigRef := resizeConfig size (sphereConfigRef s);
     frames := frames s;
     cancelled := cancelled s |}.

(** What happens to a mounted component: the host invokes the callback, or
    the parent renders it again with a size. *)
Inductive Event : Type :=
  | Invoke (inv : Invocation)
  | Render (size : R).

Definition step (p : Props) (s : Driver) (e : Event) : Driver :=
  match e with
  | Invoke inv => animate p s inv
  | Render size => resize size s
  end.

Definition runEvents (p : Props) (s : Driver) (events : list Event) : Driver :=
  fold_left (step p) events s.

(** ** The first version of the component: one audio level, no bands *)

Module LevelVariant.

Definition updateSpherePosition
    (size : R) (config : SphereConfig) (centerX centerY : R)
    (audioLevel : R) (deltaTime : R) (rnd_x rnd_y : R)
  : SphereConfig * Position :=
  let audioFactor := Rabs audioLevel * 2 in
  let ax := (rnd_x - 0.5) * 0.01 * audioFactor in
  let ay := (rnd_y - 0.5) * 0.01 * audioFactor in
  let vx1 := (velocityX config + ax) * 0.95 in
  let vy1 := (velocityY config + ay) * 0.95 in
  let maxVelocity := 0.5 + audioFactor * 0.5 in
  let magnitude := sqrt (vx1 * vx1 + vy1 * vy1) in
  let vx2 :=
    if Rlt_dec maxVelocity magnitude
    then (vx1 / magnitude) * maxVelocity else vx1 in
  let vy2 :=
    if Rlt_dec maxVelocity magnitude
    then (vy1 / magnitude) * maxVelocity else vy1 in
  let x1 := x config + vx2 * deltaTime * 0.1 in
  let y1 := y config + vy2 * deltaTime * 0.1 in
  let maxDisplacement := size * 0.05 in
  let x2 := Rmax (Rmin x1 maxDisplacement) (- maxDisplacement) in
  let y2 := Rmax (Rmin y1 maxDisplacement) (- maxDisplacement) in
  ({| baseRadius := baseRadius config;
      maxExtraRadius := maxExtraRadius config;
      arcCount := arcCount config;
      arcWidth := arcWidth config;
      rotation := rotation config;
      distortion := distortion config;
      velocityX := vx2;
      velocityY := vy2;
      x := x2;
      y := y2 |},
   {| pos_x := centerX + x2; pos_y := centerY + y2 |}).

End LevelVariant.

(** ** The demonstration pages that drive the component *)

Module IndexPage.

(** [array[index]] for an integer-valued index; outside the array it is
    [undefined]. *)
Definition array_get {A : Type} (array : list A) (index : Z) : option A :=
  if (index <? 0)%Z then None else nth_error array (Z.to_nat index).

Definition states : list AgentState :=
  [disconnected; connecting; initializing; listening; thinking; speaking].

(** [array[Math.floor(Math.random() * array.length)]] *)
Definition randomElement {A : Type} (array : list A) (rnd : R) : option A :=
  array_get array (Int_part (rnd * INR (List.length array))).

(** *** First page: a level between -0.5 and 0.5, a uniform state *)

Definition randomLevel (rnd : R) : R := (rnd - 0.5) * 1.0.

(** One timer tick: the new level, and the new state when one is set. *)
Definition uniformTick (rnd_level rnd_switch rnd_state : R)
  : R * option (option AgentState) :=
  (randomLevel rnd_level,
   if Rlt_dec 0.95 rnd_switch then Some (randomElement states rnd_state)
   else None).

(** *** Second page: a level that depends on the state, weighted states *)

Definition stateLevel (agentState : AgentState) (rnd rnd_scale : R) : R :=
  if AgentState_eqb agentState speaking then
    let randomLevel := (rnd - 0.3) * 1.5 in
    if Rlt_dec 0.9 rnd_scale then randomLevel * 0.2 else randomLevel
  else if AgentState_eqb agentState listening then
    let randomLevel := (rnd - 0.5) * 0.8 in
    if Rlt_dec 0.93 rnd_scale then randomLevel * 2.5 else randomLevel
  else (rnd - 0.5) * 0.3.

Definition weightedStates : list AgentState :=
  states ++ [listening; listening; speaking; speaking].

Definition weightedTick (agentState : AgentState)
    (rnd_level rnd_scale rnd_switch rnd_state : R)
  : R * option (option AgentState) :=
  (stateLevel agentState rnd_level rnd_scale,
   if Rlt_dec 0.97 rnd_switch
   then Some (randomElement weightedStates rnd_state)
   else None).

(** *** Third page: the level of the microphone *)

(** The loop that sums the analyser's byte array. *)
Definition byteSum (dataArray : list Byte.byte) : Z :=
  fold_left (fun sum b => (sum + Z.of_N (Byte.to_N b))%Z) dataArray 0%Z.

Definition average (dataArray : list Byte.byte) : R :=
  IZR (byteSum dataArray) / INR (List.length dataArray).

Definition normalizedLevel (dataArray : list Byte.byte) : R :=
  ((average dataArray / 128) - 0.5) * 1.5.

End IndexPage.

(** ** Band synthesis: proofs *)

Lemma sin_affine_nonneg (a b t : R) :
  0 <= b -> b <= a -> 0 <= a + b * sin t.
Proof.
  intros Hb Hab.
  pose proof (SIN_bound t) as [Hlo Hhi].
  nra.
Qed.

Lemma band_term_nonneg (l a b t : R) :
  0 <= b -> b <= a -> 0 <= Rabs l * (a + b * sin t).
Proof.
  intros Hb Hab.
  apply Rmult_le_pos.
  - apply Rabs_pos.
  - now apply sin_affine_nonneg.
Qed.

(** C3. For every state, time, level and random draw the low, mid and high
    bands are non-negative; at level 0 all four bands are 0. *)
Theorem simulateAudioBands_nonneg_and_zero :
  forall (audioLevel : R) (state : AgentState) (time rnd : R),
    let b := simulateAudioBands audioLevel state time rnd in
    (0 <= low b /\ 0 <= mid b /\ 0 <= high b) /\
    (let z := simulateAudioBands 0 state time rnd in
     low z = 0 /\ mid z = 0 /\ high z = 0 /\ transient z = 0).
Proof.
  intros audioLevel state time rnd; cbv zeta.
  split.
  - unfold simulateAudioBands.
    destruct (AgentState_eqb state speaking);
      [| destruct (AgentState_eqb state listening)];
      cbn [low mid high];
      repeat split; apply band_term_nonneg; lra.
  - unfold simulateAudioBands; rewrite Rabs_R0.
    destruct (AgentState_eqb state speaking);
      [| destruct (AgentState_eqb state listening)];
      cbn [low mid high transient];
      repeat split; apply Rmult_0_l.
Qed.

(** C4. Speaking at level 1.0 and time 0 gives low 0.7, mid 0.5, high 0.8,
    and a transient between 0.1 and 1.5 whatever the random draw. *)
Theorem simulateAudioBands_speaking_scenario :
  forall rnd : R,
    let b := simulateAudioBands 1 speaking 0 rnd in
    low b = 0.7 /\ mid b = 0.5 /\ high b = 0.8 /\
    0.1 <= transient b <= 1.5.
Proof.
  intros rnd; cbv zeta.
  unfold simulateAudioBands; cbn [AgentState_eqb low mid high transient].
  rewrite Rabs_R1, !Rmult_0_l, sin_0.
  repeat split; try lra; destruct (Rlt_dec 0.8 rnd); lra.
Qed.

(** ** The palette table: proofs *)

Lemma lookupPalette_defined (st : AgentState) :
  exists colors, lookupPalette st = Some colors
                 /\ Object_keys colors = ColorPalette_keys.
Proof.
  destruct st; eexists; split; reflexivity.
Qed.

Lemma paletteFor_lookup (st : AgentState) :
  lookupPalette st = Some (paletteFor st).
Proof.
  destruct st; reflexivity.
Qed.

Lemma paletteFor_keys (st : AgentState) :
  Object_keys (paletteFor st) = ColorPalette_keys.
Proof.
  destruct st; reflexivity.
Qed.

(** C5. Every agent state has an entry in the palette table, and the entry
    has exactly the five keys primary, secondary, tertiary, accent and
    highlight, each bound to a colour. *)
Theorem statePalettes_five_colors :
  forall st : AgentState,
    exists colors : ColorPalette,
      lookupPalette st = Some colors /\
      Object_keys colors = ColorPalette_keys /\
      List.length (Object_keys colors) = 5%nat /\
      Forall (fun key => exists c, get colors key = Some c
                                   /\ is_hex_color c = true)
        ColorPalette_keys.
Proof.
  intros st.
  exists (paletteFor st).
  split; [apply paletteFor_lookup |].
  split; [apply paletteFor_keys |].
  split; [now rewrite paletteFor_keys |].
  destruct st; repeat constructor; eexists; split; reflexivity.
Qed.

(** ** Position update: proofs *)

Lemma clamp_between (v m : R) :
  0 <= m -> - m <= Rmax (Rmin v m) (- m) <= m.
Proof.
  intros Hm; split.
  - apply Rmax_r.
  - apply Rmax_lub; [apply Rmin_r | lra].
Qed.

(** Whatever the sign of the bound, the clamp lands within its magnitude;
    with a negative bound it lands on [- m]. *)
Lemma clamp_abs (v m : R) :
  Rabs (Rmax (Rmin v m) (- m)) <= Rabs m.
Proof.
  destruct (Rle_dec 0 m) as [Hm | Hm].
  - rewrite (Rabs_pos_eq m) by assumption.
    apply Rabs_le, clamp_between, Hm.
  - assert (Hneg : m < 0) by lra.
    rewrite Rmax_right by (pose proof (Rmin_r v m); lra).
    rewrite Rabs_Ropp; apply Rle_refl.
Qed.

Lemma updateSpherePosition_offset (size : R) (config : SphereConfig)
    (centerX centerY : R) (bands : AudioBands) (deltaTime rnd_x rnd_y : R) :
  0 <= size ->
  let config' :=
    fst (updateSpherePosition size config centerX centerY bands deltaTime
           rnd_x rnd_y) in
  - (size * 0.05) <= x config' <= size * 0.05 /\
  - (size * 0.05) <= y config' <= size * 0.05.
Proof.
  intros Hsize; cbv zeta.
  unfold updateSpherePosition; cbn [fst x y].
  split; apply clamp_between; lra.
Qed.

Lemma updateSpherePosition_offset_abs (size : R) (config : SphereConfig)
    (centerX centerY : R) (bands : AudioBands) (deltaTime rnd_x rnd_y : R) :
  let config' :=
    fst (updateSpherePosition size config centerX centerY bands deltaTime
           rnd_x rnd_y) in
  Rabs (x config') <= Rabs (size * 0.05) /\
  Rabs (y config') <= Rabs (size * 0.05).
Proof.
  cbv zeta; unfold updateSpherePosition; cbn [fst x y].
  split; apply clamp_abs.
Qed.

Lemma positionRun_offset (size : R) (ticks : list PositionTick) :
  0 <= size ->
  forall config : SphereConfig,
    (- (size * 0.05) <= x config <= size * 0.05 /\
     - (size * 0.05) <= y config <= size * 0.05) ->
    - (size * 0.05) <= x (positionRun size config ticks) <= size * 0.05 /\
    - (size * 0.05) <= y (positionRun size config ticks) <= size * 0.05.
Proof.
  intros Hsize.
  induction ticks as [| t ticks IH]; intros config Hconfig.
  - exact Hconfig.
  - cbn [positionRun fold_left].
    apply (IH (positionStep size config t)).
    apply updateSpherePosition_offset, Hsize.
Qed.

Lemma sqrt_scaled_unit (vx vy m : R) :
  0 <= m -> 0 < sqrt (vx * vx + vy * vy) ->
  sqrt ((vx / sqrt (vx * vx + vy * vy) * m)
        * (vx / sqrt (vx * vx + vy * vy) * m)
        + (vy / sqrt (vx * vx + vy * vy) * m)
          * (vy / sqrt (vx * vx + vy * vy) * m)) = m.
Proof.
  intros Hm Hpos.
  set (n := sqrt (vx * vx + vy * vy)) in *.
  assert (Hsq : n * n = vx * vx + vy * vy).
  { unfold n; apply sqrt_sqrt; nra. }
  replace (vx / n * m * (vx / n * m) + vy / n * m * (vy / n * m))
    with (m * m).
  - apply sqrt_square, Hm.
  - transitivity (m * m * ((vx * vx + vy * vy) / (n * n))).
    + rewrite <- Hsq; field; lra.
    + field; lra.
Qed.



(** The bands the frame driver feeds to the position update always have a
    non-negative velocity limit. *)
Lemma simulateAudioBands_maxVelocity (audioLevel : R) (st : AgentState)
    (time rnd : R) :
  0.5 <= maxVelocity (simulateAudioBands audioLevel st time rnd).
Proof.
  unfold maxVelocity, movementFactor.
  assert (Hmid : 0 <= mid (simulateAudioBands audioLevel st time rnd)).
  { unfold simulateAudioBands.
    destruct (AgentState_eqb st speaking);
      [| destruct (AgentState_eqb st listening)];
      cbn [mid]; apply band_term_nonneg; lra. }
  assert (Htransient :
            0 <= transient (simulateAudioBands audioLevel st time rnd)).
  { pose proof (Rabs_pos audioLevel) as Habs.
    unfold simulateAudioBands.
    destruct (AgentState_eqb st speaking);
      [| destruct (AgentState_eqb st listening)];
      cbn [transient]; apply Rmult_le_pos; try exact Habs;
      match goal with |- context [Rlt_dec ?a ?b] => destruct (Rlt_dec a b) end;
      lra. }
  lra.
Qed.



(** C10. The update leaves baseRadius, maxExtraRadius, arcCount, arcWidth,
    rotation and distortion as they were, and returns the centre displaced
    by the updated offsets. *)
Theorem updateSpherePosition_frame :
  forall (size : R) (config : SphereConfig) (centerX centerY : R)
         (bands : AudioBands) (deltaTime rnd_x rnd_y : R),
    let result :=
      updateSpherePosition size config centerX centerY bands deltaTime
        rnd_x rnd_y in
    baseRadius (fst result) = baseRadius config /\
    maxExtraRadius (fst result) = maxExtraRadius config /\
    arcCount (fst result) = arcCount config /\
    arcWidth (fst result) = arcWidth config /\
    rotation (fst result) = rotation config /\
    distortion (fst result) = distortion config /\
    pos_x (snd result) = centerX + x (fst result) /\
    pos_y (snd result) = centerY + y (fst result).
Proof.
  intros; cbv zeta; unfold updateSpherePosition; cbn.
  repeat split.
Qed.

(** ** Frame driver: proofs *)

Lemma frameInterval_pos : 0 < frameInterval.
Proof. unfold frameInterval; lra. Qed.

(** The three ways an invocation can end. *)
Lemma animate_cases (p : Props) (s : Driver) (inv : Invocation) :
  animate p s inv = s
  \/ (timestamp inv - lastFrameTime s < frameInterval
      /\ animate p s inv = reschedule s inv)
  \/ (frameInterval <= timestamp inv - lastFrameTime s
      /\ exists width height,
           animate p s inv = reschedule (drawFrame p s inv width height) inv).
Proof.
  unfold animate.
  destruct (animationRef s =? 0)%Z; [now left |].
  destruct (Rle_dec frameInterval (timestamp inv - lastFrameTime s))
    as [Hdue | Hearly].
  - destruct (context inv) as [[width height] |]; [| now left].
    right; right; split; [exact Hdue |].
    now exists width, height.
  - right; left; split; [lra | reflexivity].
Qed.

Lemma animate_early (p : Props) (s : Driver) (inv : Invocation) :
  timestamp inv - lastFrameTime s < frameInterval ->
  animate p s inv = s \/ animate p s inv = reschedule s inv.
Proof.
  intros Hearly.
  destruct (animate_cases p s inv) as [H | [[_ H] | [Hdue _]]];
    [now left | now right | lra].
Qed.

Lemma painted_irrefl (s : Driver) : painted s s = false.
Proof. unfold painted; apply Nat.ltb_irrefl. Qed.

Lemma painted_reschedule (s : Driver) (inv : Invocation) :
  painted s (reschedule s inv) = false.
Proof. unfold painted; cbn [reschedule startAnimation frames]; apply Nat.ltb_irrefl. Qed.

Lemma painted_drawFrame (p : Props) (s : Driver) (inv : Invocation)
    (width height : R) :
  painted s (reschedule (drawFrame p s inv width height) inv) = true.
Proof.
  unfold painted; cbn [reschedule startAnimation drawFrame frames List.length].
  apply Nat.ltb_lt; lia.
Qed.

(** An invocation that paints is due, and moves [lastFrameTime] to its own
    timestamp. *)
Lemma painted_due (p : Props) (s : Driver) (inv : Invocation) :
  painted s (animate p s inv) = true ->
  frameInterval <= timestamp inv - lastFrameTime s
  /\ lastFrameTime (animate p s inv) = timestamp inv.
Proof.
  intros Hpainted.
  destruct (animate_cases p s inv) as [H | [[_ H] | [Hdue [w [h H]]]]];
    rewrite H in Hpainted |- *.
  - rewrite painted_irrefl in Hpainted; discriminate.
  - rewrite painted_reschedule in Hpainted; discriminate.
  - split; [exact Hdue | reflexivity].
Qed.

(** An invocation that does not paint leaves the clock of the throttle and
    both accumulators alone. *)
Lemma unpainted_frame (p : Props) (s : Driver) (inv : Invocation) :
  painted s (animate p s inv) = false ->
  lastFrameTime (animate p s inv) = lastFrameTime s
  /\ timeRef (animate p s inv) = timeRef s
  /\ colorCycleRef (animate p s inv) = colorCycleRef s
  /\ frames (animate p s inv) = frames s.
Proof.
  intros Hunpainted.
  destruct (animate_cases p s inv) as [H | [[_ H] | [_ [w [h H]]]]];
    rewrite H in Hunpainted |- *.
  - repeat split.
  - repeat split.
  - rewrite painted_drawFrame in Hunpainted; discriminate.
Qed.

Lemma drawnTimestamps_spaced (p : Props) (invs : list Invocation) :
  forall s : Driver, spacedFrom (lastFrameTime s) (drawnTimestamps p s invs).
Proof.
  induction invs as [| inv invs IH]; intros s; cbn [drawnTimestamps].
  - exact I.
  - destruct (painted s (animate p s inv)) eqn:Hpainted; cbn [app].
    + destruct (painted_due p s inv Hpainted) as [Hdue Hlast].
      cbn [spacedFrom]; split; [exact Hdue |].
      rewrite <- Hlast; apply IH.
    + destruct (unpainted_frame p s inv Hpainted) as [Hlast _].
      rewrite <- Hlast; apply IH.
Qed.

Lemma spacedFrom_later (ts : list R) :
  forall last : R, spacedFrom last ts ->
    Forall (fun t => last + frameInterval <= t) ts.
Proof.
  induction ts as [| t ts IH]; intros last Hspaced; constructor.
  - destruct Hspaced as [Hgap _]; lra.
  - destruct Hspaced as [Hgap Hrest].
    pose proof frameInterval_pos as Hpos.
    eapply Forall_impl; [| exact (IH t Hrest)].
    cbv beta; intros u Hu; lra.
Qed.

Lemma window_empty_after (windowStart bound : R) (ts : list R) :
  windowStart + frameInterval <= bound ->
  Forall (fun t => bound <= t) ts ->
  filter (inWindow windowStart) ts = [].
Proof.
  intros Hbound Hall.
  induction Hall as [| t ts Ht _ IH]; [reflexivity |].
  cbn [filter]; unfold inWindow at 1.
  destruct (Rle_dec windowStart t); [| exact IH].
  destruct (Rlt_dec t (windowStart + frameInterval)); [lra | exact IH].
Qed.

Lemma spaced_window (windowStart : R) (ts : list R) :
  forall last : R, spacedFrom last ts ->
    (drawsInWindow windowStart ts <= 1)%nat.
Proof.
  unfold drawsInWindow.
  induction ts as [| t ts IH]; intros last Hspaced; [cbn; lia |].
  destruct Hspaced as [_ Hrest].
  cbn [filter].
  destruct (inWindow windowStart t) eqn:Hin.
  - rewrite (window_empty_after windowStart (t + frameInterval) ts).
    + cbn; lia.
    + unfold inWindow in Hin.
      destruct (Rle_dec windowStart t); [lra | discriminate].
    + apply spacedFrom_later, Hrest.
  - apply (IH t Hrest).
Qed.

(** C7. In any run of the callback, every window of length frameInterval
    holds at most one painted frame; a callback invoked less than
    frameInterval after the last painted frame paints nothing; and an
    invocation that paints nothing leaves the time and colour-cycle
    accumulators unchanged. *)
Theorem animate_frame_throttle :
  forall (p : Props) (s : Driver) (invs : list Invocation),
    (forall windowStart : R,
        (drawsInWindow windowStart (drawnTimestamps p s invs) <= 1)%nat) /\
    (forall inv : Invocation,
        timestamp inv - lastFrameTime s < frameInterval ->
        painted s (animate p s inv) = false) /\
    (forall inv : Invocation,
        painted s (animate p s inv) = false ->
        timeRef (animate p s inv) = timeRef s /\
        colorCycleRef (animate p s inv) = colorCycleRef s /\
        frames (animate p s inv) = frames s).
Proof.
  intros p s invs; repeat split.
  - intros windowStart.
    apply (spaced_window windowStart _ (lastFrameTime s)).
    apply drawnTimestamps_spaced.
  - intros inv Hearly.
    destruct (animate_early p s inv Hearly) as [H | H]; rewrite H.
    + apply painted_irrefl.
    + apply painted_reschedule.
  - now apply unpainted_frame.
  - now apply unpainted_frame.
  - now apply unpainted_frame.
Qed.

Lemma animate_frame_throttle_witness :
  let p := {| size := 300; state := speaking; audioLevel := 1 |} in
  let s := startAnimation (initialDriver p 0) 1 in
  let inv :=
    {| timestamp := 10; context := Some (300, 300); rnd_band := 0.5;
       rnd_ax := 0.5; rnd_ay := 0.5; next_handle := 2 |} in
  timestamp inv - lastFrameTime s < frameInterval /\
  painted s (animate p s inv) = false /\
  timeRef (animate p s inv) = timeRef s /\
  colorCycleRef (animate p s inv) = colorCycleRef s.
Proof.
  cbv zeta.
  set (p := {| size := 300; state := speaking; audioLevel := 1 |}).
  set (s := startAnimation (initialDriver p 0) 1).
  set (inv := {| timestamp := 10; context := Some (300, 300); rnd_band := 0.5;
                 rnd_ax := 0.5; rnd_ay := 0.5; next_handle := 2 |}).
  destruct (animate_frame_throttle p s [inv]) as [_ [Hskip Hkeep]].
  assert (Hearly : timestamp inv - lastFrameTime s < frameInterval).
  { cbn; unfold frameInterval; lra. }
  pose proof (Hskip inv Hearly) as Hunpainted.
  destruct (Hkeep inv Hunpainted) as [Htime [Hcycle _]].
  repeat split; assumption.
Defined.

(** ** The position offset across frames *)

Lemma animate_offset (p : Props) (s : Driver) (inv : Invocation) :
  0 <= size p ->
  (- (size p * 0.05) <= x (sphereConfigRef s) <= size p * 0.05 /\
   - (size p * 0.05) <= y (sphereConfigRef s) <= size p * 0.05) ->
  - (size p * 0.05) <= x (sphereConfigRef (animate p s inv)) <= size p * 0.05
  /\ - (size p * 0.05) <= y (sphereConfigRef (animate p s inv))
                        <= size p * 0.05.
Proof.
  intros Hsize Hs.
  destruct (animate_cases p s inv) as [H | [[_ H] | [_ [w [h H]]]]];
    rewrite H.
  - exact Hs.
  - exact Hs.
  - cbn [reschedule startAnimation drawFrame sphereConfigRef].
    apply updateSpherePosition_offset, Hsize.
Qed.

Lemma run_offset (p : Props) (invs : list Invocation) :
  0 <= size p ->
  forall s : Driver,
    (- (size p * 0.05) <= x (sphereConfigRef s) <= size p * 0.05 /\
     - (size p * 0.05) <= y (sphereConfigRef s) <= size p * 0.05) ->
    - (size p * 0.05) <= x (sphereConfigRef (run p s invs)) <= size p * 0.05
    /\ - (size p * 0.05) <= y (sphereConfigRef (run p s invs))
                          <= size p * 0.05.
Proof.
  intros Hsize.
  induction invs as [| inv invs IH]; intros s Hs; cbn [run fold_left].
  - exact Hs.
  - apply IH, animate_offset; assumption.
Qed.

Lemma positionRun_offset_abs (size : R) (ticks : list PositionTick) :
  forall config : SphereConfig,
    (Rabs (x config) <= Rabs (size * 0.05) /\
     Rabs (y config) <= Rabs (size * 0.05)) ->
    Rabs (x (positionRun size config ticks)) <= Rabs (size * 0.05) /\
    Rabs (y (positionRun size config ticks)) <= Rabs (size * 0.05).
Proof.
  induction ticks as [| t ticks IH]; intros config Hconfig.
  - exact Hconfig.
  - cbn [positionRun fold_left].
    apply (IH (positionStep size config t)).
    apply updateSpherePosition_offset_abs.
Qed.

(** C1. For a canvas of non-negative size, the offsets x and y lie within
    [-(size*0.05), size*0.05] after one position update from any
    configuration, after any finite sequence of position updates from the
    initial configuration, and after any run of the frame callback from
    mount; this needs nothing of the bands, the random draws or the
    delta-time.  For a size of either sign the offsets stay within
    size*0.05 in magnitude. *)
Theorem position_offset_clamped :
  forall (size : R) (config : SphereConfig) (ticks : list PositionTick),
    (0 <= size ->
     (forall t : PositionTick,
         let config' := positionStep size config t in
         - (size * 0.05) <= x config' <= size * 0.05 /\
         - (size * 0.05) <= y config' <= size * 0.05) /\
     (let final := positionRun size (initialSphereConfig size) ticks in
      - (size * 0.05) <= x final <= size * 0.05 /\
      - (size * 0.05) <= y final <= size * 0.05) /\
     (forall (st : AgentState) (level now : R) (handle : Z)
             (invs : list Invocation),
         let p := {| size := size; state := st; audioLevel := level |} in
         let final :=
           sphereConfigRef
             (run p (startAnimation (initialDriver p now) handle) invs) in
         - (size * 0.05) <= x final <= size * 0.05 /\
         - (size * 0.05) <= y final <= size * 0.05)) /\
    (forall t : PositionTick,
        let config' := positionStep size config t in
        Rabs (x config') <= Rabs (size * 0.05) /\
        Rabs (y config') <= Rabs (size * 0.05)) /\
    (let final := positionRun size (initialSphereConfig size) ticks in
     Rabs (x final) <= Rabs (size * 0.05) /\
     Rabs (y final) <= Rabs (size * 0.05)).
Proof.
  intros size0 config ticks; split; [intros Hsize; split; [| split] | split].
  - intros t; apply updateSpherePosition_offset, Hsize.
  - cbv zeta; apply positionRun_offset; [exact Hsize |].
    cbn [initialSphereConfig x y]; lra.
  - intros st level now handle invs; cbv zeta.
    apply (run_offset {| size := size0; state := st; audioLevel := level |});
      [exact Hsize |].
    cbn [startAnimation initialDriver sphereConfigRef initialSphereConfig
         size x y]; lra.
  - intros t; apply updateSpherePosition_offset_abs.
  - cbv zeta; apply positionRun_offset_abs.
    cbn [initialSphereConfig x y]; rewrite Rabs_R0.
    split; apply Rabs_pos.
Qed.

Lemma position_offset_clamped_witness :
  0 <= 300 /\
  (let final :=
     positionRun 300 (initialSphereConfig 300)
       [ {| tick_centerX := 150; tick_centerY := 150;
            tick_bands := {| low := 0.7; mid := 0.5; high := 0.8;
                             transient := 1.5 |};
            tick_deltaTime := 40; tick_rnd_x := 0.9; tick_rnd_y := 0.1 |} ] in
   - (300 * 0.05) <= x final <= 300 * 0.05 /\
   - (300 * 0.05) <= y final <= 300 * 0.05).
Proof.
  assert (Hsize : 0 <= 300) by lra.
  split; [exact Hsize |].
  exact (proj1 (proj2 (proj1 (position_offset_clamped 300
                                (initialSphereConfig 300) _) Hsize))).
Defined.

(** ** Colour cycle: proofs *)

Lemma Int_part_nonneg (r : R) : 0 <= r -> (0 <= Int_part r)%Z.
Proof.
  intros Hr.
  destruct (base_Int_part r) as [_ Hlow].
  assert (Hlt : IZR (-1) < IZR (Int_part r)) by lra.
  apply lt_IZR in Hlt; lia.
Qed.

Lemma colorIndex_paletteFor (st : AgentState) (i : Z) (colorCycle : R) :
  colorIndex (paletteFor st) i colorCycle
  = Z.rem (i + Int_part colorCycle) 5.
Proof.
  unfold colorIndex; now rewrite paletteFor_keys.
Qed.

Lemma colorKey_defined (st : AgentState) (index : Z) :
  (0 <= index <= 4)%Z ->
  exists key color,
    colorKey (paletteFor st) index = Some key
    /\ In key ColorPalette_keys
    /\ get (paletteFor st) key = Some color.
Proof.
  intros Hindex.
  assert (Hcases : index = 0%Z \/ index = 1%Z \/ index = 2%Z
                   \/ index = 3%Z \/ index = 4%Z) by lia.
  destruct Hcases as [-> | [-> | [-> | [-> | ->]]]];
    destruct st; do 2 eexists;
    (split; [reflexivity | split; [cbn; tauto | reflexivity]]).
Qed.

Lemma animate_colorCycle_mono (p : Props) (s : Driver) (inv : Invocation) :
  colorCycleRef s <= colorCycleRef (animate p s inv).
Proof.
  destruct (animate_cases p s inv) as [H | [[_ H] | [Hdue [w [h H]]]]];
    rewrite H.
  - apply Rle_refl.
  - apply Rle_refl.
  - cbn [reschedule startAnimation drawFrame colorCycleRef].
    pose proof frameInterval_pos; nra.
Qed.

Lemma run_colorCycle_mono (p : Props) (invs : list Invocation) :
  forall s : Driver, colorCycleRef s <= colorCycleRef (run p s invs).
Proof.
  induction invs as [| inv invs IH]; intros s; cbn [run fold_left].
  - apply Rle_refl.
  - eapply Rle_trans; [apply (animate_colorCycle_mono p s inv) |].
    apply IH.
Qed.

(** C6. For a non-negative colour-cycle value and a non-negative arc
    index, the colour index is (i + floor(colorCycle)) mod 5, lies between
    0 and 4, and selects one of the five palette keys, which is bound in
    the palette of every state; and the colour-cycle accumulator is
    non-negative after any run of the callback from mount. *)
Theorem colorIndex_in_range :
  forall (st : AgentState) (i : Z) (colorCycle : R),
    (0 <= i)%Z -> 0 <= colorCycle ->
    let colors := paletteFor st in
    let index := colorIndex colors i colorCycle in
    index = ((i + Int_part colorCycle) mod 5)%Z /\
    (0 <= index <= 4)%Z /\
    (exists key color,
        colorKey colors index = Some key
        /\ In key ColorPalette_keys
        /\ get colors key = Some color
        /\ arcColor colors i colorCycle = Some color) /\
    (forall (p : Props) (now : R) (handle : Z) (invs : list Invocation),
        0 <= colorCycleRef
               (run p (startAnimation (initialDriver p now) handle) invs)).
Proof.
  intros st i colorCycle Hi Hcycle; cbv zeta.
  pose proof (Int_part_nonneg colorCycle Hcycle) as Hfloor.
  rewrite colorIndex_paletteFor.
  assert (Hrange : (0 <= Z.rem (i + Int_part colorCycle) 5 < 5)%Z)
    by (apply Z.rem_bound_pos; lia).
  split; [apply Z.rem_mod_nonneg; lia |].
  split; [lia |].
  split.
  - destruct (colorKey_defined st (Z.rem (i + Int_part colorCycle) 5))
      as [key [color [Hkey [Hin Hget]]]]; [lia |].
    exists key, color; repeat split; try assumption.
    unfold arcColor; rewrite colorIndex_paletteFor, Hkey; exact Hget.
  - intros p now handle invs.
    eapply Rle_trans; [| apply run_colorCycle_mono].
    cbn [startAnimation initialDriver colorCycleRef]; apply Rle_refl.
Qed.

Lemma colorIndex_in_range_witness :
  (0 <= 2)%Z /\ 0 <= 7.5 /\
  (0 <= colorIndex (paletteFor speaking) 2 7.5 <= 4)%Z.
Proof.
  assert (Hi : (0 <= 2)%Z) by lia.
  assert (Hcycle : 0 <= 7.5) by lra.
  split; [exact Hi |]; split; [exact Hcycle |].
  exact (proj1 (proj2 (colorIndex_in_range speaking 2 7.5 Hi Hcycle))).
Defined.

(** ** Teardown: proofs *)

Lemma teardown_scheduled (s : Driver) :
  animationRef s <> 0%Z ->
  teardown s
  = {| animationRef := 0;
       lastFrameTime := lastFrameTime s;
       timeRef := timeRef s;
       colorCycleRef := colorCycleRef s;
       audioBandsRef := audioBandsRef s;
       sphereConfigRef := sphereConfigRef s;
       frames := frames s;
       cancelled := animationRef s :: cancelled s |}.
Proof.
  intros Hset; unfold teardown.
  destruct (Z.eqb_spec (animationRef s) 0); [contradiction | reflexivity].
Qed.

Lemma teardown_idle (s : Driver) :
  animationRef s = 0%Z -> teardown s = s.
Proof.
  intros Hzero; unfold teardown; now rewrite Hzero.
Qed.

(** C8. With a non-zero handle, teardown passes that handle to the
    canceller once and zeroes it; with a zero handle it changes nothing;
    so a second teardown in a row is a no-op. *)
Theorem teardown_idempotent :
  forall s : Driver,
    (animationRef s <> 0%Z ->
     animationRef (teardown s) = 0%Z /\
     cancelled (teardown s) = animationRef s :: cancelled s) /\
    (animationRef s = 0%Z -> teardown s = s) /\
    teardown (teardown s) = teardown s.
Proof.
  intros s; split; [| split].
  - intros Hset; rewrite (teardown_scheduled s Hset); split; reflexivity.
  - apply teardown_idle.
  - destruct (Z.eq_dec (animationRef s) 0) as [Hzero | Hset].
    + now rewrite !(teardown_idle s Hzero).
    + apply teardown_idle.
      now rewrite (teardown_scheduled s Hset).
Qed.

Lemma teardown_idempotent_witness :
  let p := {| size := 300; state := listening; audioLevel := 0 |} in
  let s := startAnimation (initialDriver p 0) 7 in
  animationRef s <> 0%Z /\
  animationRef (teardown s) = 0%Z /\
  cancelled (teardown s) = [7%Z] /\
  teardown (teardown s) = teardown s.
Proof.
  cbv zeta.
  set (s := startAnimation
              (initialDriver
                 {| size := 300; state := listening; audioLevel := 0 |} 0) 7).
  assert (Hset : animationRef s <> 0%Z) by (cbn; lia).
  destruct (teardown_idempotent s) as [Hcancel [_ Htwice]].
  destruct (Hcancel Hset) as [Hzero Hlist].
  repeat split; assumption.
Defined.

(** ** Wave points: proofs *)

Lemma seq_nth_error (len k : nat) :
  (k < len)%nat -> forall start, nth_error (seq start len) k = Some (start + k)%nat.
Proof.
  revert k; induction len as [| len IH]; intros k Hk start; [lia |].
  destruct k as [| k]; cbn [seq nth_error].
  - f_equal; lia.
  - rewrite IH by lia; f_equal; lia.
Qed.

Lemma INR_steps : INR WaveArc.steps = 30.
Proof.
  unfold WaveArc.steps.
  change 30%nat with (Z.to_nat 30); rewrite INR_IZR_INZ, Z2Nat.id by lia.
  reflexivity.
Qed.

(** C9. The sampler returns 31 points; point k, for k from 0 to 30, lies at
    angle startAngle + (endAngle - startAngle)*k/30 and at distance radius
    plus the sine displacement from the centre, the wave factor, period and
    speed being the configured ones modulated by the high and mid bands. *)
Theorem calculateWavePoints_samples :
  forall (centerX centerY radius startAngle endAngle : R)
         (config : WaveArc.SphereConfig) (time : R) (bands : AudioBands),
    let points :=
      WaveArc.calculateWavePoints centerX centerY radius startAngle endAngle
        config time bands in
    List.length points = 31%nat /\
    forall k : nat, (k <= 30)%nat ->
      let waveFactor' := WaveArc.waveFactor config * (1 + high bands * 0.5) in
      let wavePeriod' := WaveArc.wavePeriod config * (1 - mid bands * 0.3) in
      let waveSpeed' := WaveArc.waveSpeed config * (1 + mid bands * 0.5) in
      let angle := startAngle + (endAngle - startAngle) * INR k / 30 in
      let waveRadius :=
        radius
        + sin (angle * wavePeriod' + time * waveSpeed') * waveFactor' * radius
          * (1 + high bands * 0.3) in
      nth_error points k
      = Some {| pos_x := centerX + cos angle * waveRadius;
                pos_y := centerY + sin angle * waveRadius |}.
Proof.
  intros centerX centerY radius startAngle endAngle config time bands.
  cbv zeta; unfold WaveArc.calculateWavePoints; split.
  - now rewrite length_map, length_seq.
  - intros k Hk.
    rewrite nth_error_map, seq_nth_error by (unfold WaveArc.steps; lia).
    cbn [option_map Nat.add]; unfold WaveArc.wavePoint.
    now rewrite INR_steps.
Qed.

Lemma calculateWavePoints_samples_witness :
  let config :=
    {| WaveArc.baseRadius := 105; WaveArc.maxExtraRadius := 30;
       WaveArc.arcCount := 4; WaveArc.arcWidth := 9; WaveArc.rotation := 0;
       WaveArc.distortion := 0; WaveArc.velocityX := 0;
       WaveArc.velocityY := 0; WaveArc.x := 0; WaveArc.y := 0;
       WaveArc.blurAmount := 5; WaveArc.waveFactor := 0.2;
       WaveArc.wavePeriod := 6; WaveArc.waveSpeed := 0.001 |} in
  let bands := {| low := 0; mid := 0; high := 0; transient := 0 |} in
  (0 <= 30)%nat /\
  nth_error (WaveArc.calculateWavePoints 150 150 100 0 PI config 0 bands) 0
  = Some {| pos_x :=
              150 + cos (0 + (PI - 0) * INR 0 / 30)
                    * (100 + sin ((0 + (PI - 0) * INR 0 / 30)
                                  * (6 * (1 - 0 * 0.3))
                                  + 0 * (0.001 * (1 + 0 * 0.5)))
                             * (0.2 * (1 + 0 * 0.5)) * 100 * (1 + 0 * 0.3));
            pos_y :=
              150 + sin (0 + (PI - 0) * INR 0 / 30)
                    * (100 + sin ((0 + (PI - 0) * INR 0 / 30)
                                  * (6 * (1 - 0 * 0.3))
                                  + 0 * (0.001 * (1 + 0 * 0.5)))
                             * (0.2 * (1 + 0 * 0.5)) * 100 * (1 + 0 * 0.3)) |}.
Proof.
  cbv zeta.
  assert (Hk : (0 <= 30)%nat) by lia.
  split; [exact Hk |].
  exact (proj2 (calculateWavePoints_samples 150 150 100 0 PI _ 0
                  {| low := 0; mid := 0; high := 0; transient := 0 |})
           0%nat Hk).
Defined.

(** ** Band synthesis: further properties *)

Lemma band_term_le (l a b t : R) :
  0 <= b -> a + b <= 1 -> Rabs l * (a + b * sin t) <= Rabs l.
Proof.
  intros Hb Hab.
  pose proof (SIN_bound t) as [Hlo Hhi].
  pose proof (Rabs_pos l) as Habs.
  assert (Hfactor : a + b * sin t <= 1) by nra.
  rewrite <- (Rmult_1_r (Rabs l)) at 2.
  apply Rmult_le_compat_l; assumption.
Qed.

(** Every band is bounded by the level: low, mid and high lie between 0 and
    |audioLevel|, the transient between 0.1*|audioLevel| and
    1.5*|audioLevel|, for every state, time and random draw. *)
Theorem simulateAudioBands_bounded :
  forall (audioLevel : R) (st : AgentState) (time rnd : R),
    let b := simulateAudioBands audioLevel st time rnd in
    0 <= low b <= Rabs audioLevel /\
    0 <= mid b <= Rabs audioLevel /\
    0 <= high b <= Rabs audioLevel /\
    0.1 * Rabs audioLevel <= transient b <= 1.5 * Rabs audioLevel.
Proof.
  intros audioLevel st time rnd; cbv zeta.
  pose proof (Rabs_pos audioLevel) as Habs.
  unfold simulateAudioBands.
  destruct (AgentState_eqb st speaking);
    [| destruct (AgentState_eqb st listening)];
    cbn [low mid high transient];
    (repeat split;
     try (apply band_term_nonneg; lra);
     try (apply band_term_le; lra);
     match goal with
     | |- context [Rlt_dec ?a ?b] => destruct (Rlt_dec a b); lra
     end).
Qed.

(** The bands depend on the level only through its absolute value, and on
    the state only through whether it is speaking, listening or neither. *)
Theorem simulateAudioBands_symmetry :
  forall (audioLevel : R) (st : AgentState) (time rnd : R),
    simulateAudioBands (- audioLevel) st time rnd
    = simulateAudioBands audioLevel st time rnd /\
    (st <> speaking -> st <> listening ->
     simulateAudioBands audioLevel st time rnd
     = simulateAudioBands audioLevel disconnected time rnd).
Proof.
  intros audioLevel st time rnd; split.
  - unfold simulateAudioBands; now rewrite Rabs_Ropp.
  - intros Hspeaking Hlistening.
    destruct st; try reflexivity; contradiction.
Qed.

Lemma simulateAudioBands_symmetry_witness :
  thinking <> speaking /\ thinking <> listening /\
  simulateAudioBands 0.4 thinking 100 0.95
  = simulateAudioBands 0.4 disconnected 100 0.95.
Proof.
  assert (H1 : thinking <> speaking) by discriminate.
  assert (H2 : thinking <> listening) by discriminate.
  split; [exact H1 |]; split; [exact H2 |].
  exact (proj2 (simulateAudioBands_symmetry 0.4 thinking 100 0.95) H1 H2).
Defined.

(** ** Drawing routines: properties *)

Lemma pulseFactor_range (time : R) :
  0.7 <= sin (time * 0.002) * 0.15 + 0.85 <= 1.
Proof.
  pose proof (SIN_bound (time * 0.002)) as [Hlo Hhi]; lra.
Qed.

(** The sphere is one filled disc and one rim stroke.  With a non-negative
    base radius and non-negative bands the disc radius lies between 70% and
    100% of baseRadius*(1 + 0.4*low), the gradient reaches at least 1.2
    radii, has four colour stops, and the rim has alpha at least 0.3 and
    width at least 1. *)
Theorem drawMainSphere_geometry :
  forall (centerX centerY : R) (config : SphereConfig)
         (colors : ColorPalette) (bands : AudioBands) (time : R),
    0 <= baseRadius config ->
    0 <= low bands -> 0 <= high bands -> 0 <= transient bands ->
    exists radius gradientRadius stops alpha width color,
      drawMainSphere centerX centerY config colors bands time
      = [ FillSphere centerX centerY radius gradientRadius stops;
          StrokeRim alpha width color ] /\
      0.7 * (baseRadius config * (1 + low bands * 0.4)) <= radius /\
      radius <= baseRadius config * (1 + low bands * 0.4) /\
      1.2 * radius <= gradientRadius /\
      List.length stops = 4%nat /\
      0.3 <= alpha /\ 1 <= width.
Proof.
  intros centerX centerY config colors bands time Hbase Hlow Hhigh Htrans.
  unfold drawMainSphere, createRadialGradient; cbn [fst snd].
  do 6 eexists; split; [reflexivity |].
  pose proof (pulseFactor_range time) as [Hlo Hhi].
  set (pulse := sin (time * 0.002) * 0.15 + 0.85) in *.
  assert (Hfull : 0 <= baseRadius config * (1 + low bands * 0.4)) by nra.
  set (full := baseRadius config * (1 + low bands * 0.4)) in *.
  assert (Hradius : 0 <= full * pulse) by nra.
  repeat split; try reflexivity; try nra.
Qed.

Lemma drawMainSphere_geometry_witness :
  let config := initialSphereConfig 300 in
  let bands := {| low := 0.5; mid := 0.5; high := 0.5; transient := 0.1 |} in
  0 <= baseRadius config /\
  exists radius gradientRadius stops alpha width color,
    drawMainSphere 150 150 config (paletteFor speaking) bands 0
    = [ FillSphere 150 150 radius gradientRadius stops;
        StrokeRim alpha width color ] /\
    0.7 * (baseRadius config * (1 + low bands * 0.4)) <= radius /\
    radius <= baseRadius config * (1 + low bands * 0.4) /\
    1.2 * radius <= gradientRadius /\
    List.length stops = 4%nat /\
    0.3 <= alpha /\ 1 <= width.
Proof.
  cbv zeta.
  assert (Hbase : 0 <= baseRadius (initialSphereConfig 300))
    by (cbn [initialSphereConfig baseRadius]; lra).
  split; [exact Hbase |].
  apply (drawMainSphere_geometry 150 150 (initialSphereConfig 300)
           (paletteFor speaking)
           {| low := 0.5; mid := 0.5; high := 0.5; transient := 0.1 |} 0
           Hbase); cbn [low high transient]; lra.
Defined.

Lemma flat_map_pairs_length {A B : Type} (f : A -> list B) (l : list A) :
  (forall a, List.length (f a) = 2%nat) ->
  List.length (flat_map f l) = (2 * List.length l)%nat.
Proof.
  intros Hpair.
  induction l as [| a l IH]; [reflexivity |].
  cbn [flat_map]; rewrite length_app, Hpair, IH; cbn [List.length]; lia.
Qed.

Lemma orbitalArc_forward (centerX centerY : R) (config : SphereConfig)
    (colors : ColorPalette) (bands : AudioBands) (time colorCycle : R)
    (i : nat) :
  0 <= baseRadius config -> 0 <= arcWidth config ->
  0 <= low bands -> 0 <= mid bands -> 0 <= high bands ->
  0 <= transient bands ->
  Forall forwardArc
    (orbitalArc centerX centerY config colors bands time colorCycle i).
Proof.
  intros Hbase Hwidth Hlow Hmid Hhigh Htrans.
  pose proof (pos_INR i) as Hi.
  pose proof PI_RGT_0 as Hpi.
  pose proof (SIN_bound (time * 0.001 + INR i)) as [Hlo Hhi].
  assert (Hsegment :
            0 < PI * (0.5 + transient bands * 0.3
                      + sin (time * 0.001 + INR i) * 0.2)).
  { apply Rmult_lt_0_compat; [exact Hpi | lra]. }
  assert (Hradius :
            0 <= baseRadius config * (1.2 + INR i * 0.15 + low bands * 0.1)
                 * (1 + mid bands * 0.25)).
  { apply Rmult_le_pos; [apply Rmult_le_pos |]; nra. }
  assert (Hw : 0 <= arcWidth config * (0.6 + INR i * 0.2)
                    * (1 + high bands * 0.4)).
  { apply Rmult_le_pos; [apply Rmult_le_pos |]; nra. }
  unfold orbitalArc, drawArc.
  apply Forall_cons; [| apply Forall_cons; [| apply Forall_nil]];
    cbn [forwardArc]; repeat split; lra.
Qed.

(** The orbital arcs are two strokes per arc of the configuration; with a
    non-negative base radius, arc width and bands, every stroke runs
    forward from its start angle with a non-negative radius and width. *)
Theorem drawOrbitalArcs_strokes :
  forall (centerX centerY : R) (config : SphereConfig)
         (colors : ColorPalette) (bands : AudioBands) (time colorCycle : R),
    0 <= baseRadius config -> 0 <= arcWidth config ->
    0 <= low bands -> 0 <= mid bands -> 0 <= high bands ->
    0 <= transient bands ->
    List.length
      (drawOrbitalArcs centerX centerY config colors bands time colorCycle)
    = (2 * arcCount config)%nat /\
    Forall forwardArc
      (drawOrbitalArcs centerX centerY config colors bands time colorCycle).
Proof.
  intros centerX centerY config colors bands time colorCycle
         Hbase Hwidth Hlow Hmid Hhigh Htrans.
  unfold drawOrbitalArcs; split.
  - rewrite flat_map_pairs_length; [now rewrite length_seq | reflexivity].
  - apply Forall_flat_map, Forall_forall.
    intros i _; now apply orbitalArc_forward.
Qed.

Lemma drawOrbitalArcs_strokes_witness :
  let config := initialSphereConfig 300 in
  let bands := {| low := 0.5; mid := 0.5; high := 0.5; transient := 0.1 |} in
  0 <= baseRadius config /\ 0 <= arcWidth config /\
  List.length (drawOrbitalArcs 150 150 config (paletteFor speaking) bands 0 0)
  = 6%nat /\
  Forall forwardArc
    (drawOrbitalArcs 150 150 config (paletteFor speaking) bands 0 0).
Proof.
  cbv zeta.
  assert (Hbase : 0 <= baseRadius (initialSphereConfig 300))
    by (cbn [initialSphereConfig baseRadius]; lra).
  assert (Hwidth : 0 <= arcWidth (initialSphereConfig 300))
    by (cbn [initialSphereConfig arcWidth]; lra).
  split; [exact Hbase |]; split; [exact Hwidth |].
  apply (drawOrbitalArcs_strokes 150 150 (initialSphereConfig 300)
           (paletteFor speaking)
           {| low := 0.5; mid := 0.5; high := 0.5; transient := 0.1 |} 0 0
           Hbase Hwidth); cbn [low mid high transient]; lra.
Defined.

(** ** Frame driver: further properties *)

Lemma animate_idle (p : Props) (s : Driver) (inv : Invocation) :
  animationRef s = 0%Z -> animate p s inv = s.
Proof.
  intros Hzero; unfold animate; now rewrite Hzero.
Qed.

Lemma run_idle (p : Props) (invs : list Invocation) :
  forall s : Driver, animationRef s = 0%Z -> run p s invs = s.
Proof.
  induction invs as [| inv invs IH]; intros s Hzero; [reflexivity |].
  cbn [run fold_left]; rewrite (animate_idle p s inv Hzero).
  now apply IH.
Qed.

Lemma teardown_handle (s : Driver) : animationRef (teardown s) = 0%Z.
Proof.
  unfold teardown.
  destruct (Z.eqb_spec (animationRef s) 0) as [Hzero | Hset];
    [exact Hzero | reflexivity].
Qed.

(** Once torn down, the callback does nothing however often it is still
    invoked: no frame, no accumulator change, no new schedule. *)
Theorem run_after_teardown :
  forall (p : Props) (s : Driver) (invs : list Invocation),
    run p (teardown s) invs = teardown s.
Proof.
  intros p s invs; apply run_idle, teardown_handle.
Qed.

(** An invocation paints exactly when the handle is set, the frame is due
    and a context is available.  A due invocation without a context leaves
    the state as it is, without scheduling again; every other invocation
    with a set handle stores the newly scheduled handle. *)
Theorem animate_paints_iff :
  forall (p : Props) (s : Driver) (inv : Invocation),
    (painted s (animate p s inv) = true <->
     animationRef s <> 0%Z
     /\ frameInterval <= timestamp inv - lastFrameTime s
     /\ context inv <> None) /\
    (animationRef s <> 0%Z ->
     frameInterval <= timestamp inv - lastFrameTime s ->
     context inv = None -> animate p s inv = s) /\
    (animationRef s <> 0%Z ->
     timestamp inv - lastFrameTime s < frameInterval \/ context inv <> None ->
     animationRef (animate p s inv) = next_handle inv).
Proof.
  intros p s inv.
  unfold animate.
  destruct (Z.eqb_spec (animationRef s) 0) as [Hzero | Hset].
  - split; [| split]; try contradiction.
    rewrite painted_irrefl; split; [discriminate | tauto].
  - destruct (Rle_dec frameInterval (timestamp inv - lastFrameTime s))
      as [Hdue | Hearly].
    + destruct (context inv) as [[width height] |].
      * split; [| split].
        -- rewrite painted_drawFrame; split; [| reflexivity].
           intros _; repeat split; [exact Hset | exact Hdue | discriminate].
        -- discriminate.
        -- reflexivity.
      * split; [| split].
        -- rewrite painted_irrefl; split; [discriminate |].
           intros [_ [_ Hctx]]; now contradiction Hctx.
        -- reflexivity.
        -- intros _ [Hlt | Hctx]; [lra | now contradiction Hctx].
    + split; [| split].
      * rewrite painted_reschedule; split; [discriminate |].
        intros [_ [Hdue _]]; lra.
      * intros _ Hdue; lra.
      * reflexivity.
Qed.

Lemma animate_paints_iff_witness :
  let p := {| size := 300; state := speaking; audioLevel := 1 |} in
  let s := startAnimation (initialDriver p 0) 1 in
  let inv :=
    {| timestamp := 40; context := None; rnd_band := 0.5;
       rnd_ax := 0.5; rnd_ay := 0.5; next_handle := 2 |} in
  animationRef s <> 0%Z /\
  frameInterval <= timestamp inv - lastFrameTime s /\
  context inv = None /\
  animate p s inv = s.
Proof.
  cbv zeta.
  set (p := {| size := 300; state := speaking; audioLevel := 1 |}).
  set (s := startAnimation (initialDriver p 0) 1).
  set (inv := {| timestamp := 40; context := None; rnd_band := 0.5;
                 rnd_ax := 0.5; rnd_ay := 0.5; next_handle := 2 |}).
  assert (Hset : animationRef s <> 0%Z) by (cbn; lia).
  assert (Hdue : frameInterval <= timestamp inv - lastFrameTime s).
  { cbn; unfold frameInterval; lra. }
  assert (Hctx : context inv = None) by reflexivity.
  split; [exact Hset |]; split; [exact Hdue |]; split; [exact Hctx |].
  exact (proj1 (proj2 (animate_paints_iff p s inv)) Hset Hdue Hctx).
Defined.

Lemma run_frames (p : Props) (invs : list Invocation) :
  forall s : Driver,
    List.length (frames (run p s invs))
    = (List.length (frames s) + List.length (drawnTimestamps p s invs))%nat
    /\ INR (List.length (drawnTimestamps p s invs)) * frameInterval
       <= lastFrameTime (run p s invs) - lastFrameTime s.
Proof.
  induction invs as [| inv invs IH]; intros s;
    cbn [run fold_left drawnTimestamps].
  - cbn [List.length INR]; split; [lia | lra].
  - change (fold_left (animate p) invs (animate p s inv))
      with (run p (animate p s inv) invs).
    destruct (IH (animate p s inv)) as [Hcount Hbudget].
    rewrite Hcount.
    destruct (painted s (animate p s inv)) eqn:Hpainted.
    + destruct (painted_due p s inv Hpainted) as [Hdue Hlast].
      cbn [app List.length].
      assert (Hgrow : List.length (frames (animate p s inv))
                      = S (List.length (frames s))).
      { destruct (animate_cases p s inv)
          as [H | [[_ H] | [_ [w [h H]]]]]; rewrite H in Hpainted |- *.
        - rewrite painted_irrefl in Hpainted; discriminate.
        - rewrite painted_reschedule in Hpainted; discriminate.
        - reflexivity. }
      rewrite Hgrow, S_INR; split; [lia | lra].
    + destruct (unpainted_frame p s inv Hpainted) as [Hlast [_ [_ Hframes]]].
      cbn [app]; rewrite Hframes; split; [lia | lra].
Qed.

(** A run paints one frame per painted timestamp, never more frames than
    invocations, and the frames painted times the frame interval fit in the
    time between the frame painted last before the run and the last one of
    the run: at most 30 frames per second. *)
Theorem run_frame_budget :
  forall (p : Props) (s : Driver) (invs : list Invocation),
    List.length (frames (run p s invs))
    = (List.length (frames s) + List.length (drawnTimestamps p s invs))%nat /\
    (List.length (drawnTimestamps p s invs) <= List.length invs)%nat /\
    INR (List.length (drawnTimestamps p s invs)) * frameInterval
    <= lastFrameTime (run p s invs) - lastFrameTime s.
Proof.
  intros p s invs.
  destruct (run_frames p invs s) as [Hcount Hbudget].
  split; [exact Hcount |]; split; [| exact Hbudget].
  clear Hcount Hbudget; revert s.
  induction invs as [| inv invs IH]; intros s; cbn [drawnTimestamps];
    [cbn; lia |].
  rewrite length_app; specialize (IH (animate p s inv)).
  destruct (painted s (animate p s inv)); cbn [List.length]; lia.
Qed.

(** ** What a painted frame holds *)

Lemma arcColor_defined (st : AgentState) (i : Z) (colorCycle : R) :
  (0 <= i)%Z -> 0 <= colorCycle ->
  defined (arcColor (paletteFor st) i colorCycle) = true.
Proof.
  intros Hi Hcycle.
  pose proof (Int_part_nonneg colorCycle Hcycle) as Hfloor.
  assert (Hrange : (0 <= Z.rem (i + Int_part colorCycle) 5 < 5)%Z)
    by (apply Z.rem_bound_pos; lia).
  destruct (colorKey_defined st (Z.rem (i + Int_part colorCycle) 5))
    as [key [color [Hkey [_ Hget]]]]; [lia |].
  unfold arcColor; now rewrite colorIndex_paletteFor, Hkey, Hget.
Qed.

Lemma drawMainSphere_colored (centerX centerY : R) (config : SphereConfig)
    (st : AgentState) (bands : AudioBands) (time : R) :
  forallb colored
    (drawMainSphere centerX centerY config (paletteFor st) bands time) = true.
Proof.
  destruct st; reflexivity.
Qed.

Lemma drawOrbitalArcs_colored (centerX centerY : R) (config : SphereConfig)
    (st : AgentState) (bands : AudioBands) (time colorCycle : R) :
  0 <= colorCycle ->
  forallb colored
    (drawOrbitalArcs centerX centerY config (paletteFor st) bands time
       colorCycle) = true.
Proof.
  intros Hcycle.
  apply forallb_forall; intros op Hop.
  unfold drawOrbitalArcs in Hop.
  apply in_flat_map in Hop; destruct Hop as [i [_ Hop]].
  unfold orbitalArc, drawArc in Hop.
  destruct Hop as [<- | [<- | []]]; cbn [colored];
    apply arcColor_defined; [lia | exact Hcycle | lia | exact Hcycle].
Qed.

Lemma drawFrame_wellformed (p : Props) (s : Driver) (inv : Invocation)
    (width height : R) :
  arcCount (sphereConfigRef s) = 3%nat ->
  0 <= colorCycleRef s ->
  frameInterval <= timestamp inv - lastFrameTime s ->
  exists rest,
    frames (drawFrame p s inv width height)
    = (ClearRect width height :: rest) :: frames s
    /\ List.length rest = 8%nat
    /\ forallb colored rest = true.
Proof.
  intros Harcs Hcycle Hdue.
  unfold drawFrame; cbn [frames].
  eexists; split; [reflexivity |]; split.
  - rewrite length_app.
    unfold drawOrbitalArcs.
    rewrite flat_map_pairs_length by reflexivity.
    rewrite length_seq.
    unfold updateSpherePosition; cbn [fst arcCount].
    rewrite Harcs; reflexivity.
  - rewrite forallb_app, drawMainSphere_colored.
    apply drawOrbitalArcs_colored.
    pose proof frameInterval_pos; nra.
Qed.

Lemma animate_arcCount (p : Props) (s : Driver) (inv : Invocation) :
  arcCount (sphereConfigRef (animate p s inv)) = arcCount (sphereConfigRef s).
Proof.
  destruct (animate_cases p s inv) as [H | [[_ H] | [_ [w [h H]]]]];
    rewrite H; reflexivity.
Qed.

(** Every frame painted in a run from mount is a clear of the canvas
    followed by eight drawing commands (the disc, its rim, and two strokes
    for each of the three arcs), none of which uses an undefined colour. *)
Theorem painted_frames_wellformed :
  forall (p : Props) (now : R) (handle : Z) (invs : list Invocation),
    Forall
      (fun ops =>
         exists width height rest,
           ops = ClearRect width height :: rest
           /\ List.length rest = 8%nat
           /\ forallb colored rest = true)
      (frames (run p (startAnimation (initialDriver p now) handle) invs)).
Proof.
  intros p now handle invs.
  set (P := fun ops : list CanvasOp =>
              exists width height rest,
                ops = ClearRect width height :: rest
                /\ List.length rest = 8%nat
                /\ forallb colored rest = true).
  assert (Hinv : forall (l : list Invocation) (s : Driver),
             arcCount (sphereConfigRef s) = 3%nat ->
             0 <= colorCycleRef s ->
             Forall P (frames s) ->
             Forall P (frames (run p s l))).
  { induction l as [| inv l IH]; intros s Harcs Hcycle Hframes;
      cbn [run fold_left]; [exact Hframes |].
    apply IH.
    - now rewrite animate_arcCount.
    - eapply Rle_trans; [exact Hcycle | apply animate_colorCycle_mono].
    - destruct (animate_cases p s inv) as [H | [[_ H] | [Hdue [w [h H]]]]];
        rewrite H; try exact Hframes.
      cbn [reschedule startAnimation frames].
      destruct (drawFrame_wellformed p s inv w h Harcs Hcycle Hdue)
        as [rest [Heq [Hlen Hcol]]].
      rewrite Heq; constructor; [| exact Hframes].
      now exists w, h, rest. }
  apply Hinv.
  - reflexivity.
  - cbn [startAnimation initialDriver colorCycleRef]; apply Rle_refl.
  - constructor.
Qed.

(** ** Rotation and velocity across frames *)

Lemma simulateAudioBands_mid_nonneg (audioLevel : R) (st : AgentState)
    (time rnd : R) :
  0 <= mid (simulateAudioBands audioLevel st time rnd).
Proof.
  unfold simulateAudioBands.
  destruct (AgentState_eqb st speaking);
    [| destruct (AgentState_eqb st listening)];
    cbn [mid]; apply band_term_nonneg; lra.
Qed.

Lemma animate_rotation (p : Props) (s : Driver) (inv : Invocation) :
  rotation (sphereConfigRef s)
  + (if painted s (animate p s inv) then 0.005 else 0)
  <= rotation (sphereConfigRef (animate p s inv)).
Proof.
  destruct (animate_cases p s inv) as [H | [[_ H] | [_ [w [h H]]]]];
    rewrite H.
  - rewrite painted_irrefl; lra.
  - rewrite painted_reschedule; cbn [reschedule startAnimation sphereConfigRef].
    lra.
  - rewrite painted_drawFrame.
    cbn [reschedule startAnimation drawFrame sphereConfigRef].
    unfold updateSpherePosition; cbn [fst rotation].
    pose proof (simulateAudioBands_mid_nonneg (audioLevel p) (state p)
                  (timeRef s + (timestamp inv - lastFrameTime s))
                  (rnd_band inv)).
    lra.
Qed.

(** Over exact reals, a run adds at least 0.005 per painted frame. *)
Lemma run_rotation_steps (p : Props) (invs : list Invocation) :
  forall s : Driver,
    rotation (sphereConfigRef s)
    + 0.005 * INR (List.length (drawnTimestamps p s invs))
    <= rotation (sphereConfigRef (run p s invs)).
Proof.
  induction invs as [| inv invs IH]; intros s;
    cbn [run fold_left drawnTimestamps].
  - cbn [List.length INR]; lra.
  - change (fold_left (animate p) invs (animate p s inv))
      with (run p (animate p s inv) invs).
    specialize (IH (animate p s inv)).
    pose proof (animate_rotation p s inv) as Hstep.
    rewrite length_app, plus_INR.
    destruct (painted s (animate p s inv)); cbn [List.length INR] in *; lra.
Qed.

(** The sphere never turns back: over any run the rotation does not
    decrease, and it has grown as soon as the run painted a frame. *)
Theorem run_rotation :
  forall (p : Props) (s : Driver) (invs : list Invocation),
    rotation (sphereConfigRef s) <= rotation (sphereConfigRef (run p s invs))
    /\ (drawnTimestamps p s invs <> [] ->
        rotation (sphereConfigRef s)
        < rotation (sphereConfigRef (run p s invs))).
Proof.
  intros p s invs.
  pose proof (run_rotation_steps p invs s) as Hsteps.
  pose proof (pos_INR (List.length (drawnTimestamps p s invs))) as Hcount.
  split; [lra |].
  intros Hpainted.
  assert (Hone : 1 <= INR (List.length (drawnTimestamps p s invs))).
  { destruct (drawnTimestamps p s invs) as [| t ts]; [contradiction |].
    cbn [List.length]; rewrite S_INR.
    pose proof (pos_INR (List.length ts)); lra. }
  lra.
Qed.

Lemma run_rotation_witness :
  let p := {| size := 300; state := speaking; audioLevel := 1 |} in
  let s := startAnimation (initialDriver p 0) 1 in
  let inv :=
    {| timestamp := 40; context := Some (300, 300); rnd_band := 0.5;
       rnd_ax := 0.5; rnd_ay := 0.5; next_handle := 2 |} in
  drawnTimestamps p s [inv] <> [] /\
  rotation (sphereConfigRef s) < rotation (sphereConfigRef (run p s [inv])).
Proof.
  cbv zeta.
  set (p := {| size := 300; state := speaking; audioLevel := 1 |}).
  set (s := startAnimation (initialDriver p 0) 1).
  set (inv := {| timestamp := 40; context := Some (300, 300); rnd_band := 0.5;
                 rnd_ax := 0.5; rnd_ay := 0.5; next_handle := 2 |}).
  assert (Hpainted : drawnTimestamps p s [inv] <> []).
  { cbn [drawnTimestamps].
    assert (Hstep : animate p s inv
                    = reschedule (drawFrame p s inv 300 300) inv).
    { unfold animate; cbn [s startAnimation animationRef Z.eqb].
      destruct (Rle_dec frameInterval (timestamp inv - lastFrameTime s))
        as [_ | Hearly]; [reflexivity |].
      exfalso; apply Hearly; cbn; unfold frameInterval; lra. }
    rewrite Hstep, painted_drawFrame; discriminate. }
  split; [exact Hpainted |].
  exact (proj2 (run_rotation p s [inv]) Hpainted).
Defined.

Lemma clamped_velocity (vx vy limit : R) :
  0 <= limit ->
  let magnitude := sqrt (vx * vx + vy * vy) in
  let vx' := if Rlt_dec limit magnitude then vx / magnitude * limit else vx in
  let vy' := if Rlt_dec limit magnitude then vy / magnitude * limit else vy in
  sqrt (vx' * vx' + vy' * vy') <= limit.
Proof.
  intros Hlimit; cbv zeta.
  destruct (Rlt_dec limit (sqrt (vx * vx + vy * vy))) as [Hover | Hunder].
  - rewrite sqrt_scaled_unit; [apply Rle_refl | exact Hlimit | lra].
  - lra.
Qed.

Lemma simulateAudioBands_maxVelocity_upper (audioLevel : R) (st : AgentState)
    (time rnd : R) :
  maxVelocity (simulateAudioBands audioLevel st time rnd)
  <= 0.5 + 2.25 * Rabs audioLevel.
Proof.
  pose proof (Rabs_pos audioLevel) as Habs.
  assert (Hmid : mid (simulateAudioBands audioLevel st time rnd)
                 <= Rabs audioLevel).
  { unfold simulateAudioBands.
    destruct (AgentState_eqb st speaking);
      [| destruct (AgentState_eqb st listening)];
      cbn [mid]; apply band_term_le; lra. }
  assert (Htransient : transient (simulateAudioBands audioLevel st time rnd)
                       <= 1.5 * Rabs audioLevel).
  { unfold simulateAudioBands.
    destruct (AgentState_eqb st speaking);
      [| destruct (AgentState_eqb st listening)];
      cbn [transient];
      match goal with |- context [Rlt_dec ?a ?b] => destruct (Rlt_dec a b) end;
      lra. }
  unfold maxVelocity, movementFactor; lra.
Qed.

Lemma animate_velocity (p : Props) (s : Driver) (inv : Invocation) :
  sqrt (velocityX (sphereConfigRef s) * velocityX (sphereConfigRef s)
        + velocityY (sphereConfigRef s) * velocityY (sphereConfigRef s))
  <= 0.5 + 2.25 * Rabs (audioLevel p) ->
  sqrt (velocityX (sphereConfigRef (animate p s inv))
        * velocityX (sphereConfigRef (animate p s inv))
        + velocityY (sphereConfigRef (animate p s inv))
          * velocityY (sphereConfigRef (animate p s inv)))
  <= 0.5 + 2.25 * Rabs (audioLevel p).
Proof.
  intros Hs.
  destruct (animate_cases p s inv) as [H | [[_ H] | [_ [w [h H]]]]];
    rewrite H; try exact Hs.
  cbn [reschedule startAnimation drawFrame sphereConfigRef].
  unfold updateSpherePosition; cbn [fst velocityX velocityY].
  set (bands := simulateAudioBands (audioLevel p) (state p)
                  (timeRef s + (timestamp inv - lastFrameTime s))
                  (rnd_band inv)).
  eapply Rle_trans; [| apply (simulateAudioBands_maxVelocity_upper
                                (audioLevel p) (state p)
                                (timeRef s + (timestamp inv - lastFrameTime s))
                                (rnd_band inv))].
  fold bands.
  apply clamped_velocity.
  pose proof (simulateAudioBands_maxVelocity (audioLevel p) (state p)
                (timeRef s + (timestamp inv - lastFrameTime s))
                (rnd_band inv)) as Hpos.
  fold bands in Hpos; lra.
Qed.

(** After any run from mount the speed of the sphere is at most
    0.5 + 2.25*|audioLevel|: the limit of each frame is at least 0.5 and at
    most that, whatever the state, the times and the random draws. *)
Theorem run_velocity_bounded :
  forall (p : Props) (now : R) (handle : Z) (invs : list Invocation),
    let config :=
      sphereConfigRef
        (run p (startAnimation (initialDriver p now) handle) invs) in
    sqrt (velocityX config * velocityX config
          + velocityY config * velocityY config)
    <= 0.5 + 2.25 * Rabs (audioLevel p).
Proof.
  intros p now handle invs; cbv zeta.
  assert (Hinv : forall (l : list Invocation) (s : Driver),
             sqrt (velocityX (sphereConfigRef s) * velocityX (sphereConfigRef s)
                   + velocityY (sphereConfigRef s)
                     * velocityY (sphereConfigRef s))
             <= 0.5 + 2.25 * Rabs (audioLevel p) ->
             sqrt (velocityX (sphereConfigRef (run p s l))
                   * velocityX (sphereConfigRef (run p s l))
                   + velocityY (sphereConfigRef (run p s l))
                     * velocityY (sphereConfigRef (run p s l)))
             <= 0.5 + 2.25 * Rabs (audioLevel p)).
  { induction l as [| inv l IH]; intros s Hs; cbn [run fold_left];
      [exact Hs |].
    apply IH, animate_velocity, Hs. }
  apply Hinv.
  cbn [startAnimation initialDriver sphereConfigRef initialSphereConfig
       velocityX velocityY].
  replace (0 * 0 + 0 * 0) with 0 by lra.
  rewrite sqrt_0.
  pose proof (Rabs_pos (audioLevel p)); lra.
Qed.

(** ** The first version of the component *)


(** ** The disc stays on the canvas *)

Lemma simulateAudioBands_low_range (audioLevel : R) (st : AgentState)
    (time rnd : R) :
  0 <= low (simulateAudioBands audioLevel st time rnd) <= Rabs audioLevel.
Proof.
  unfold simulateAudioBands.
  destruct (AgentState_eqb st speaking);
    [| destruct (AgentState_eqb st listening)];
    cbn [low]; (split; [apply band_term_nonneg | apply band_term_le]); lra.
Qed.

Lemma drawOrbitalArcs_no_disc (side centerX centerY : R)
    (config : SphereConfig) (colors : ColorPalette) (bands : AudioBands)
    (time colorCycle : R) :
  Forall (discInside side)
    (drawOrbitalArcs centerX centerY config colors bands time colorCycle).
Proof.
  unfold drawOrbitalArcs.
  apply Forall_flat_map, Forall_forall; intros i _.
  unfold orbitalArc, drawArc.
  repeat (apply Forall_cons; [exact I |]); apply Forall_nil.
Qed.

Lemma drawFrame_disc_inside (p : Props) (s : Driver) (inv : Invocation)
    (side : R) :
  0 <= size p -> size p <= side -> Rabs (audioLevel p) <= 0.7 ->
  0 <= baseRadius (sphereConfigRef s) <= size p * 0.35 ->
  exists ops,
    frames (drawFrame p s inv side side) = ops :: frames s
    /\ Forall (discInside side) ops.
Proof.
  intros Hsize Hside Hlevel [Hbase0 Hbase1].
  unfold drawFrame; cbn [frames].
  eexists; split; [reflexivity |].
  apply Forall_cons; [exact I |].
  apply Forall_app; split; [| apply drawOrbitalArcs_no_disc].
  set (time := timeRef s + (timestamp inv - lastFrameTime s)).
  set (bands := simulateAudioBands (audioLevel p) (state p) time
                  (rnd_band inv)).
  unfold drawMainSphere.
  apply Forall_cons; [| apply Forall_cons; [exact I | apply Forall_nil]].
  cbn [discInside].
  pose proof (simulateAudioBands_low_range (audioLevel p) (state p) time
                (rnd_band inv)) as [Hlow0 Hlow1].
  fold bands in Hlow0, Hlow1.
  pose proof (pulseFactor_range time) as [Hp0 Hp1].
  set (pulse := sin (time * 0.002) * 0.15 + 0.85) in *.
  unfold updateSpherePosition; cbn [fst snd baseRadius pos_x pos_y].
  set (base := baseRadius (sphereConfigRef s)) in *.
  set (dx := Rmax (Rmin _ (size p * 0.05)) (- (size p * 0.05))).
  set (dy := Rmax (Rmin _ (size p * 0.05)) (- (size p * 0.05))).
  assert (Hdx : - (size p * 0.05) <= dx <= size p * 0.05)
    by (apply clamp_between; lra).
  assert (Hdy : - (size p * 0.05) <= dy <= size p * 0.05)
    by (apply clamp_between; lra).
  assert (Hgain : 1 <= 1 + low bands * 0.4 <= 1.28) by lra.
  assert (Hfull : 0 <= base * (1 + low bands * 0.4) <= size p * 0.448).
  { split; [apply Rmult_le_pos; lra |].
    apply Rle_trans with (size p * 0.35 * 1.28); [| lra].
    apply Rmult_le_compat; lra. }
  set (full := base * (1 + low bands * 0.4)) in *.
  assert (Hradius : 0 <= full * pulse <= size p * 0.448) by nra.
  repeat split; lra.
Qed.

Lemma animate_baseRadius (p : Props) (s : Driver) (inv : Invocation) :
  baseRadius (sphereConfigRef (animate p s inv))
  = baseRadius (sphereConfigRef s).
Proof.
  destruct (animate_cases p s inv) as [H | [[_ H] | [_ [w [h H]]]]];
    rewrite H; reflexivity.
Qed.

Lemma step_disc_inside (p : Props) (side : R) (s : Driver) (e : Event) :
  0 <= size p -> size p <= side -> Rabs (audioLevel p) <= 0.7 ->
  match e with
  | Invoke inv => context inv = None \/ context inv = Some (side, side)
  | Render size' => 0 <= size' <= size p
  end ->
  0 <= baseRadius (sphereConfigRef s) <= size p * 0.35 ->
  Forall (Forall (discInside side)) (frames s) ->
  0 <= baseRadius (sphereConfigRef (step p s e)) <= size p * 0.35
  /\ Forall (Forall (discInside side)) (frames (step p s e)).
Proof.
  intros Hsize Hside Hlevel He Hbase Hframes.
  destruct e as [inv | size']; cbn [step].
  - split; [now rewrite animate_baseRadius |].
    unfold animate.
    destruct (animationRef s =? 0)%Z; [exact Hframes |].
    destruct (Rle_dec frameInterval (timestamp inv - lastFrameTime s));
      [| exact Hframes].
    destruct He as [Hnone | Hsome]; rewrite ?Hnone, ?Hsome;
      [exact Hframes |].
    cbn [reschedule startAnimation frames].
    destruct (drawFrame_disc_inside p s inv side Hsize Hside Hlevel Hbase)
      as [ops [Heq Hops]].
    rewrite Heq; now constructor.
  - cbn [resize resizeConfig sphereConfigRef baseRadius frames].
    split; [lra | exact Hframes].
Qed.

(** On a square canvas at least as wide as the mounted size (a pixel ratio
    of 1 or more), with a non-negative size and |audioLevel| at most 0.7,
    the disc of every painted frame lies entirely on the canvas, through
    any sequence of callback invocations and of re-renders whose size is
    between 0 and the mounted size.  (A re-render with a larger size
    enlarges the disc while the canvas keeps its size, and can push it off
    the canvas.) *)
Theorem events_disc_inside :
  forall (p : Props) (now : R) (handle : Z) (side : R)
         (events : list Event),
    0 <= size p -> size p <= side -> Rabs (audioLevel p) <= 0.7 ->
    Forall
      (fun e =>
         match e with
         | Invoke inv => context inv = None \/ context inv = Some (side, side)
         | Render size' => 0 <= size' <= size p
         end) events ->
    Forall (Forall (discInside side))
      (frames
         (runEvents p (startAnimation (initialDriver p now) handle) events)).
Proof.
  intros p now handle side events Hsize Hside Hlevel Hevents.
  assert (Hinv : forall (l : list Event) (s : Driver),
             Forall
               (fun e =>
                  match e with
                  | Invoke inv =>
                      context inv = None \/ context inv = Some (side, side)
                  | Render size' => 0 <= size' <= size p
                  end) l ->
             0 <= baseRadius (sphereConfigRef s) <= size p * 0.35 ->
             Forall (Forall (discInside side)) (frames s) ->
             Forall (Forall (discInside side)) (frames (runEvents p s l))).
  { induction l as [| e l IH]; intros s Hl Hbase Hframes;
      cbn [runEvents fold_left]; [exact Hframes |].
    inversion Hl as [| e' l' He Hrest]; subst.
    destruct (step_disc_inside p side s e Hsize Hside Hlevel He Hbase Hframes)
      as [Hbase' Hframes'].
    now apply IH. }
  apply Hinv; [exact Hevents | | constructor].
  cbn [startAnimation initialDriver sphereConfigRef initialSphereConfig
       baseRadius]; lra.
Qed.

Lemma events_disc_inside_witness :
  let p := {| size := 300; state := listening; audioLevel := 0.5 |} in
  let inv :=
    {| timestamp := 40; context := Some (300, 300); rnd_band := 0.5;
       rnd_ax := 0.9; rnd_ay := 0.1; next_handle := 2 |} in
  0 <= size p /\ size p <= 300 /\ Rabs (audioLevel p) <= 0.7 /\
  Forall (Forall (discInside 300))
    (frames
       (runEvents p (startAnimation (initialDriver p 0) 1)
          [Render 200; Invoke inv])).
Proof.
  cbv zeta.
  set (p := {| size := 300; state := listening; audioLevel := 0.5 |}).
  set (inv := {| timestamp := 40; context := Some (300, 300); rnd_band := 0.5;
                 rnd_ax := 0.9; rnd_ay := 0.1; next_handle := 2 |}).
  assert (Hsize : 0 <= size p) by (cbn; lra).
  assert (Hside : size p <= 300) by (cbn; lra).
  assert (Hlevel : Rabs (audioLevel p) <= 0.7).
  { cbn [p audioLevel]; rewrite Rabs_pos_eq; lra. }
  assert (Hevents :
            Forall
              (fun e =>
                 match e with
                 | Invoke i => context i = None
                               \/ context i = Some (300, 300)
                 | Render size' => 0 <= size' <= size p
                 end) [Render 200; Invoke inv]).
  { constructor; [cbn; lra |].
    constructor; [right; reflexivity | constructor]. }
  split; [exact Hsize |]; split; [exact Hside |]; split; [exact Hlevel |].
  exact (events_disc_inside p 0 1 300 [Render 200; Invoke inv]
           Hsize Hside Hlevel Hevents).
Defined.

(** ** Wave points and the wave path: properties *)

Lemma calculateWavePoints_nth
    (centerX centerY radius startAngle endAngle : R)
    (config : WaveArc.SphereConfig) (time : R) (bands : AudioBands) (k : nat) :
  (k <= 30)%nat ->
  nth_error
    (WaveArc.calculateWavePoints centerX centerY radius startAngle endAngle
       config time bands) k
  = Some (WaveArc.wavePoint centerX centerY radius startAngle endAngle config
            time bands k).
Proof.
  intros Hk; unfold WaveArc.calculateWavePoints.
  rewrite nth_error_map, seq_nth_error by (unfold WaveArc.steps; lia).
  reflexivity.
Qed.

Lemma calculateWavePoints_length
    (centerX centerY radius startAngle endAngle : R)
    (config : WaveArc.SphereConfig) (time : R) (bands : AudioBands) :
  List.length
    (WaveArc.calculateWavePoints centerX centerY radius startAngle endAngle
       config time bands) = 31%nat.
Proof.
  unfold WaveArc.calculateWavePoints; now rewrite length_map, length_seq.
Qed.

Lemma wavePoint_first (startAngle endAngle : R) :
  startAngle + (endAngle - startAngle) * INR 0 / INR WaveArc.steps
  = startAngle.
Proof.
  rewrite INR_steps; cbn [INR]; lra.
Qed.

(** The sampled arc starts exactly at the start angle: point 0 is the
    wave-displaced point of that angle.  An arc of no extent (end angle
    equal to start angle) is that same point 31 times. *)
Theorem calculateWavePoints_start :
  forall (centerX centerY radius startAngle endAngle : R)
         (config : WaveArc.SphereConfig) (time : R) (bands : AudioBands),
    let points :=
      WaveArc.calculateWavePoints centerX centerY radius startAngle endAngle
        config time bands in
    let waveRadius :=
      radius
      + sin (startAngle
             * (WaveArc.wavePeriod config * (1 - mid bands * 0.3))
             + time * (WaveArc.waveSpeed config * (1 + mid bands * 0.5)))
        * (WaveArc.waveFactor config * (1 + high bands * 0.5)) * radius
        * (1 + high bands * 0.3) in
    let start :=
      {| pos_x := centerX + cos startAngle * waveRadius;
         pos_y := centerY + sin startAngle * waveRadius |} in
    nth_error points 0 = Some start /\
    (endAngle = startAngle -> points = repeat start 31).
Proof.
  intros centerX centerY radius startAngle endAngle config time bands.
  cbv zeta; split.
  - rewrite calculateWavePoints_nth by lia.
    unfold WaveArc.wavePoint; now rewrite wavePoint_first.
  - intros ->.
    unfold WaveArc.calculateWavePoints.
    rewrite (map_ext _ (fun _ : nat =>
               {| pos_x :=
                    centerX
                    + cos startAngle
                      * (radius
                         + sin (startAngle
                                * (WaveArc.wavePeriod config
                                   * (1 - mid bands * 0.3))
                                + time
                                  * (WaveArc.waveSpeed config
                                     * (1 + mid bands * 0.5)))
                           * (WaveArc.waveFactor config
                              * (1 + high bands * 0.5)) * radius
                           * (1 + high bands * 0.3));
                  pos_y :=
                    centerY
                    + sin startAngle
                      * (radius
                         + sin (startAngle
                                * (WaveArc.wavePeriod config
                                   * (1 - mid bands * 0.3))
                                + time
                                  * (WaveArc.waveSpeed config
                                     * (1 + mid bands * 0.5)))
                           * (WaveArc.waveFactor config
                              * (1 + high bands * 0.5)) * radius
                           * (1 + high bands * 0.3)) |})).
    + now rewrite map_const, length_seq.
    + intros i; unfold WaveArc.wavePoint.
      replace (startAngle
               + (startAngle - startAngle) * INR i / INR WaveArc.steps)
        with startAngle by (unfold Rdiv; ring).
      reflexivity.
Qed.

Lemma calculateWavePoints_start_witness :
  let config :=
    {| WaveArc.baseRadius := 105; WaveArc.maxExtraRadius := 30;
       WaveArc.arcCount := 4; WaveArc.arcWidth := 9; WaveArc.rotation := 0;
       WaveArc.distortion := 0; WaveArc.velocityX := 0;
       WaveArc.velocityY := 0; WaveArc.x := 0; WaveArc.y := 0;
       WaveArc.blurAmount := 5; WaveArc.waveFactor := 0.2;
       WaveArc.wavePeriod := 6; WaveArc.waveSpeed := 0.001 |} in
  let bands := {| low := 0; mid := 0; high := 0; transient := 0 |} in
  1 = 1 /\
  List.length (WaveArc.calculateWavePoints 150 150 100 1 1 config 0 bands)
  = 31%nat.
Proof.
  cbv zeta.
  assert (Hsame : 1 = 1) by reflexivity.
  split; [exact Hsame |].
  rewrite (proj2 (calculateWavePoints_start 150 150 100 1 1 _ 0
                    {| low := 0; mid := 0; high := 0; transient := 0 |})
             Hsame).
  apply repeat_length.
Defined.

Lemma wavePoint_distance (centerX centerY radius startAngle endAngle : R)
    (config : WaveArc.SphereConfig) (time : R) (bands : AudioBands) (i : nat) :
  let pt :=
    WaveArc.wavePoint centerX centerY radius startAngle endAngle config time
      bands i in
  exists waveRadius : R,
    (pos_x pt - centerX) * (pos_x pt - centerX)
    + (pos_y pt - centerY) * (pos_y pt - centerY)
    = waveRadius * waveRadius
    /\ Rabs (waveRadius - radius)
       <= Rabs (WaveArc.waveFactor config * (1 + high bands * 0.5) * radius
                * (1 + high bands * 0.3)).
Proof.
  cbv zeta; unfold WaveArc.wavePoint; cbn [pos_x pos_y].
  set (angle := startAngle + (endAngle - startAngle) * INR i
                             / INR WaveArc.steps).
  set (phase := angle * (WaveArc.wavePeriod config * (1 - mid bands * 0.3))
                + time * (WaveArc.waveSpeed config * (1 + mid bands * 0.5))).
  set (amplitude := WaveArc.waveFactor config * (1 + high bands * 0.5)).
  exists (radius + sin phase * amplitude * radius * (1 + high bands * 0.3)).
  split.
  - pose proof (sin2_cos2 angle) as Hunit; unfold Rsqr in Hunit.
    set (w := radius + sin phase * amplitude * radius * (1 + high bands * 0.3)).
    replace ((centerX + cos angle * w - centerX)
             * (centerX + cos angle * w - centerX)
             + (centerY + sin angle * w - centerY)
               * (centerY + sin angle * w - centerY))
      with ((sin angle * sin angle + cos angle * cos angle) * (w * w))
      by ring.
    rewrite Hunit; ring.
  - replace (radius + sin phase * amplitude * radius * (1 + high bands * 0.3)
             - radius)
      with (sin phase * (amplitude * radius * (1 + high bands * 0.3)))
      by ring.
    rewrite Rabs_mult.
    pose proof (SIN_bound phase) as Hsin.
    assert (Hone : Rabs (sin phase) <= 1) by (apply Rabs_le; lra).
    pose proof (Rabs_pos (amplitude * radius * (1 + high bands * 0.3))).
    nra.
Qed.

(** Every sampled point lies at a distance from the centre that differs
    from the base radius by at most
    |waveFactor*(1 + 0.5*high)*radius*(1 + 0.3*high)|; with a wave factor of
    0 the points lie on the circle of the plain arc. *)
Theorem calculateWavePoints_distance :
  forall (centerX centerY radius startAngle endAngle : R)
         (config : WaveArc.SphereConfig) (time : R) (bands : AudioBands),
    Forall
      (fun pt : Position =>
         exists waveRadius : R,
           (pos_x pt - centerX) * (pos_x pt - centerX)
           + (pos_y pt - centerY) * (pos_y pt - centerY)
           = waveRadius * waveRadius
           /\ Rabs (waveRadius - radius)
              <= Rabs (WaveArc.waveFactor config * (1 + high bands * 0.5)
                       * radius * (1 + high bands * 0.3)))
      (WaveArc.calculateWavePoints centerX centerY radius startAngle endAngle
         config time bands).
Proof.
  intros centerX centerY radius startAngle endAngle config time bands.
  unfold WaveArc.calculateWavePoints.
  apply Forall_map, Forall_forall; intros i _.
  apply wavePoint_distance.
Qed.

Lemma nth_pred_last {A : Type} (l : list A) (d : A) :
  nth (List.length l - 1) l d = last l d.
Proof.
  induction l as [| a l IH]; [reflexivity |].
  destruct l as [| b l]; [reflexivity |].
  cbn [List.length Nat.sub] in *.
  rewrite Nat.sub_0_r in IH.
  change (nth (S (List.length l)) (a :: b :: l) d)
    with (nth (List.length l) (b :: l) d).
  rewrite IH; reflexivity.
Qed.

Lemma smoothPath_long (first : Position) (rest : list Position) :
  (2 <= List.length rest)%nat ->
  exists curves : list WaveArc.PathCmd,
    WaveArc.smoothPath (first :: rest)
    = WaveArc.MoveTo first
      :: curves
      ++ [ WaveArc.QuadraticCurveTo
             (nth (List.length rest - 1) (first :: rest) first)
             (last (first :: rest) first) ]
    /\ List.length curves = (List.length rest - 2)%nat.
Proof.
  intros Hlen.
  unfold WaveArc.smoothPath.
  assert (Hlong : (2 <? List.length (first :: rest))%nat = true)
    by (apply Nat.ltb_lt; cbn [List.length]; lia).
  rewrite Hlong.
  rewrite <- (nth_pred_last (first :: rest) first).
  replace (List.length (first :: rest) - 2)%nat
    with (List.length rest - 1)%nat by (cbn [List.length]; lia).
  eexists; split; [reflexivity |].
  rewrite length_map, length_seq; cbn [List.length]; lia.
Qed.

(** The path through a list of points: none for no point; a bare move for
    one or two points, so that a second point is never reached; and from
    three points on a move to the first point followed by one curve fewer
    than there are further points, the last of which ends on the last
    point. *)
Theorem smoothPath_shape :
  forall points : list Position,
    (points = [] -> WaveArc.smoothPath points = []) /\
    (forall first rest,
        points = first :: rest -> (List.length rest <= 1)%nat ->
        WaveArc.smoothPath points = [WaveArc.MoveTo first]) /\
    (forall first rest,
        points = first :: rest -> (2 <= List.length rest)%nat ->
        List.length (WaveArc.smoothPath points) = List.length rest /\
        hd_error (WaveArc.smoothPath points) = Some (WaveArc.MoveTo first) /\
        WaveArc.target
          (last (WaveArc.smoothPath points) (WaveArc.MoveTo first))
        = last points first).
Proof.
  intros points; split; [| split].
  - intros ->; reflexivity.
  - intros first rest -> Hshort.
    destruct rest as [| second [| third rest]];
      [reflexivity | reflexivity | cbn [List.length] in Hshort; lia].
  - intros first rest -> Hlong.
    destruct (smoothPath_long first rest Hlong) as [curves [Heq Hcurves]].
    rewrite Heq; split; [| split].
    + cbn [List.length]; rewrite length_app, Hcurves; cbn [List.length]; lia.
    + reflexivity.
    + rewrite app_comm_cons, last_last; reflexivity.
Qed.

Lemma smoothPath_shape_witness :
  let a := {| pos_x := 0; pos_y := 0 |} in
  let b := {| pos_x := 1; pos_y := 2 |} in
  let c := {| pos_x := 3; pos_y := 1 |} in
  (2 <= List.length [b; c])%nat /\
  List.length (WaveArc.smoothPath [a; b; c]) = 2%nat /\
  WaveArc.target (last (WaveArc.smoothPath [a; b; c]) (WaveArc.MoveTo a)) = c.
Proof.
  cbv zeta.
  assert (Hlong : (2 <= List.length [ {| pos_x := 1; pos_y := 2 |};
                                      {| pos_x := 3; pos_y := 1 |} ])%nat)
    by (cbn [List.length]; lia).
  split; [exact Hlong |].
  destruct (proj2 (proj2 (smoothPath_shape
                            [ {| pos_x := 0; pos_y := 0 |};
                              {| pos_x := 1; pos_y := 2 |};
                              {| pos_x := 3; pos_y := 1 |} ]))
              _ _ eq_refl Hlong) as [Hlen [_ Hlast]].
  split; [exact Hlen | exact Hlast].
Defined.

Lemma calculateWavePoints_nth_default
    (centerX centerY radius startAngle endAngle : R)
    (config : WaveArc.SphereConfig) (time : R) (bands : AudioBands)
    (k : nat) (d : Position) :
  (k <= 30)%nat ->
  nth k
    (WaveArc.calculateWavePoints centerX centerY radius startAngle endAngle
       config time bands) d
  = WaveArc.wavePoint centerX centerY radius startAngle endAngle config time
      bands k.
Proof.
  intros Hk; apply nth_error_nth; now apply calculateWavePoints_nth.
Qed.

(** A wave arc is stroked as a move to sampled point 0 followed by 29
    quadratic curves: curve j, for j from 0 to 27, has sampled point j+1 as
    control point and ends on the midpoint of points j+1 and j+2; the last
    curve has point 29 as control point and ends on point 30, the last
    sample.  The stroke has the width and colour it was given. *)
Theorem drawWaveArc_path :
  forall (centerX centerY radius startAngle endAngle width : R)
         (color : option string) (config : WaveArc.SphereConfig) (time : R)
         (bands : AudioBands) (blur : bool),
    let stroke :=
      WaveArc.drawWaveArc centerX centerY radius startAngle endAngle width
        color config time bands blur in
    let point :=
      WaveArc.wavePoint centerX centerY radius startAngle endAngle config
        time bands in
    exists curves : list WaveArc.PathCmd,
      WaveArc.path stroke = WaveArc.MoveTo (point 0%nat) :: curves /\
      List.length curves = 29%nat /\
      (forall j : nat, (j < 28)%nat ->
         nth_error curves j
         = Some (WaveArc.QuadraticCurveTo (point (S j))
                   (WaveArc.midpoint (point (S j)) (point (S (S j)))))) /\
      nth_error curves 28
      = Some (WaveArc.QuadraticCurveTo (point 29%nat) (point 30%nat)) /\
      WaveArc.lineWidth stroke = width /\
      WaveArc.strokeStyle stroke = color.
Proof.
  intros centerX centerY radius startAngle endAngle width color config time
         bands blur.
  cbv zeta; unfold WaveArc.drawWaveArc;
    cbn [WaveArc.path WaveArc.lineWidth WaveArc.strokeStyle].
  pose proof (calculateWavePoints_length centerX centerY radius startAngle
                endAngle config time bands) as Hlen.
  pose proof (fun k d => calculateWavePoints_nth_default centerX centerY
                           radius startAngle endAngle config time bands k d)
    as Hnth.
  set (point := WaveArc.wavePoint centerX centerY radius startAngle endAngle
                  config time bands) in *.
  destruct (WaveArc.calculateWavePoints centerX centerY radius startAngle
              endAngle config time bands) as [| first rest] eqn:Hpoints;
    [discriminate |].
  assert (Hfirst : first = point 0%nat)
    by (rewrite <- (Hnth 0%nat first) by lia; reflexivity).
  unfold WaveArc.smoothPath; rewrite Hlen.
  change (31 - 3)%nat with 28%nat; change (31 - 2)%nat with 29%nat;
    change (31 - 1)%nat with 30%nat; change (2 <? 31)%nat with true.
  rewrite !Hnth by lia.
  eexists; split; [rewrite Hfirst at 1; reflexivity |].
  split; [now rewrite length_app, length_map, length_seq |].
  split; [| split; [| split; reflexivity]].
  - intros j Hj.
    rewrite nth_error_app1 by (rewrite length_map, length_seq; exact Hj).
    rewrite nth_error_map, seq_nth_error by exact Hj.
    cbn [option_map Nat.add].
    now rewrite !Hnth by lia.
  - rewrite nth_error_app2 by (rewrite length_map, length_seq; lia).
    rewrite length_map, length_seq; reflexivity.
Qed.

Lemma drawWaveArc_path_witness :
  let config :=
    {| WaveArc.baseRadius := 105; WaveArc.maxExtraRadius := 30;
       WaveArc.arcCount := 4; WaveArc.arcWidth := 9; WaveArc.rotation := 0;
       WaveArc.distortion := 0; WaveArc.velocityX := 0;
       WaveArc.velocityY := 0; WaveArc.x := 0; WaveArc.y := 0;
       WaveArc.blurAmount := 5; WaveArc.waveFactor := 0.2;
       WaveArc.wavePeriod := 6; WaveArc.waveSpeed := 0.001 |} in
  let bands := {| low := 0; mid := 0; high := 0; transient := 0 |} in
  let point := WaveArc.wavePoint 150 150 100 0 PI config 0 bands in
  (0 < 28)%nat /\
  exists curves : list WaveArc.PathCmd,
    WaveArc.path
      (WaveArc.drawWaveArc 150 150 100 0 PI 9 None config 0 bands true)
    = WaveArc.MoveTo (point 0%nat) :: curves /\
    nth_error curves 0
    = Some (WaveArc.QuadraticCurveTo (point 1%nat)
              (WaveArc.midpoint (point 1%nat) (point 2%nat))).
Proof.
  cbv zeta.
  assert (Hj : (0 < 28)%nat) by lia.
  split; [exact Hj |].
  destruct (drawWaveArc_path 150 150 100 0 PI 9 None
              {| WaveArc.baseRadius := 105; WaveArc.maxExtraRadius := 30;
                 WaveArc.arcCount := 4; WaveArc.arcWidth := 9;
                 WaveArc.rotation := 0; WaveArc.distortion := 0;
                 WaveArc.velocityX := 0; WaveArc.velocityY := 0;
                 WaveArc.x := 0; WaveArc.y := 0; WaveArc.blurAmount := 5;
                 WaveArc.waveFactor := 0.2; WaveArc.wavePeriod := 6;
                 WaveArc.waveSpeed := 0.001 |} 0
              {| low := 0; mid := 0; high := 0; transient := 0 |} true)
    as [curves [Hpath [_ [Hinner _]]]].
  exists curves; split; [exact Hpath | exact (Hinner 0%nat Hj)].
Defined.

(** The blur amount the wave variant sets on every painted frame swings
    between -5 and 15, and does reach -5: it is negative for part of every
    cycle. *)
Theorem animatedBlur_range :
  (forall time : R, -5 <= WaveArc.animatedBlur time <= 15) /\
  WaveArc.animatedBlur (3000 * PI) = -5.
Proof.
  split.
  - intros time; unfold WaveArc.animatedBlur.
    pose proof (SIN_bound (time * 0.0005)) as [Hlo Hhi]; lra.
  - unfold WaveArc.animatedBlur.
    replace (3000 * PI * 0.0005) with (3 * (PI / 2)) by lra.
    rewrite sin_3PI2; lra.
Qed.

(** ** The demonstration pages: properties *)

Lemma floor_bucket (r : R) (k : nat) :
  INR k <= r < INR k + 1 -> Int_part r = Z.of_nat k.
Proof.
  intros [Hlo Hhi].
  symmetry; apply Int_part_spec.
  rewrite <- INR_IZR_INZ; lra.
Qed.

Lemma array_get_nat {A : Type} (array : list A) (k : nat) :
  IndexPage.array_get array (Z.of_nat k) = nth_error array k.
Proof.
  unfold IndexPage.array_get.
  destruct (Z.ltb_spec (Z.of_nat k) 0) as [Hneg | _]; [lia |].
  now rewrite Nat2Z.id.
Qed.

Lemma randomElement_bucket {A : Type} (array : list A) (rnd : R) (k : nat) :
  INR k <= rnd * INR (List.length array) < INR k + 1 ->
  IndexPage.randomElement array rnd = nth_error array k.
Proof.
  intros Hbucket; unfold IndexPage.randomElement.
  now rewrite (floor_bucket _ k Hbucket), array_get_nat.
Qed.

(** The bucket a product falls in: its floor, as a natural number. *)
Lemma bucket_exists (r : R) (n : nat) :
  0 <= r < INR n -> exists k : nat, (k < n)%nat /\ INR k <= r < INR k + 1.
Proof.
  intros [Hlo Hhi].
  destruct (base_Int_part r) as [Hfloor_le Hfloor_gt].
  pose proof (Int_part_nonneg r Hlo) as Hnonneg.
  exists (Z.to_nat (Int_part r)).
  assert (Hk : INR (Z.to_nat (Int_part r)) = IZR (Int_part r)).
  { rewrite INR_IZR_INZ, Z2Nat.id by exact Hnonneg; reflexivity. }
  rewrite Hk; split; [| lra].
  apply INR_lt; rewrite Hk; lra.
Qed.



(** On the first page, random draws in [0, 1) give a level in [-0.5, 0.5),
    and a state is set only when the switch draw exceeds 0.95, always to
    one of the six agent states. *)
Theorem uniformTick_range :
  forall rnd_level rnd_switch rnd_state : R,
    0 <= rnd_level < 1 -> 0 <= rnd_state < 1 ->
    let tick := IndexPage.uniformTick rnd_level rnd_switch rnd_state in
    -0.5 <= fst tick < 0.5 /\
    (rnd_switch <= 0.95 -> snd tick = None) /\
    (0.95 < rnd_switch ->
     exists st : AgentState,
       snd tick = Some (Some st) /\ In st IndexPage.states).
Proof.
  intros rnd_level rnd_switch rnd_state Hlevel Hstate; cbv zeta.
  unfold IndexPage.uniformTick, IndexPage.randomLevel; cbn [fst snd].
  split; [lra |].
  destruct (Rlt_dec 0.95 rnd_switch) as [Hswitch | Hkeep]; split;
    try (intros; lra); try reflexivity.
  intros _.
  destruct (bucket_exists (rnd_state * INR (List.length IndexPage.states))
              (List.length IndexPage.states)) as [k [Hk Hbucket]].
  { cbn [IndexPage.states List.length INR]; lra. }
  rewrite (randomElement_bucket IndexPage.states rnd_state k Hbucket).
  destruct (nth_error IndexPage.states k) as [st |] eqn:Hnth.
  - exists st; split; [reflexivity | eapply nth_error_In, Hnth].
  - apply nth_error_None in Hnth; lia.
Qed.

Lemma uniformTick_range_witness :
  0 <= 0.25 < 1 /\ 0 <= 0.5 < 1 /\
  -0.5 <= fst (IndexPage.uniformTick 0.25 0.99 0.5) < 0.5.
Proof.
  assert (Hlevel : 0 <= 0.25 < 1) by lra.
  assert (Hstate : 0 <= 0.5 < 1) by lra.
  split; [exact Hlevel |]; split; [exact Hstate |].
  exact (proj1 (uniformTick_range 0.25 0.99 0.5 Hlevel Hstate)).
Defined.

(** On the second page, draws in [0, 1) give a level in [-0.45, 1.05) while
    speaking, in [-1, 1) while listening and in [-0.15, 0.15) in every
    other state. *)
Theorem stateLevel_range :
  forall (agentState : AgentState) (rnd rnd_scale : R),
    0 <= rnd < 1 ->
    let level := IndexPage.stateLevel agentState rnd rnd_scale in
    (agentState = speaking -> -0.45 <= level < 1.05) /\
    (agentState = listening -> -1 <= level < 1) /\
    (agentState <> speaking -> agentState <> listening ->
     -0.15 <= level < 0.15) /\
    -1 <= level < 1.05.
Proof.
  intros agentState rnd rnd_scale Hrnd; cbv zeta.
  unfold IndexPage.stateLevel.
  destruct agentState; cbn [AgentState_eqb];
    repeat match goal with
           | |- context [Rlt_dec ?a ?b] => destruct (Rlt_dec a b)
           end;
    (split; [| split; [| split]]);
    try (intros; discriminate); try (intros; lra);
    try (intros; congruence).
Qed.

Lemma stateLevel_range_witness :
  0 <= 0.99 < 1 /\
  -0.45 <= IndexPage.stateLevel speaking 0.99 0.5 < 1.05.
Proof.
  assert (Hrnd : 0 <= 0.99 < 1) by lra.
  split; [exact Hrnd |].
  exact (proj1 (stateLevel_range speaking 0.99 0.5 Hrnd) eq_refl).
Defined.



Lemma byteSum_from (dataArray : list Byte.byte) :
  forall sum : Z,
    (sum
     <= fold_left (fun acc b => acc + Z.of_N (Byte.to_N b)) dataArray sum
     <= sum + 255 * Z.of_nat (List.length dataArray))%Z.
Proof.
  induction dataArray as [| b rest IH]; intros sum; cbn [fold_left].
  - cbn [List.length]; lia.
  - specialize (IH (sum + Z.of_N (Byte.to_N b))%Z).
    pose proof (Byte.to_N_bounded b) as Hb.
    cbn [List.length]; lia.
Qed.

Lemma byteSum_silent (dataArray : list Byte.byte) :
  Forall (fun b => b = Byte.x00) dataArray ->
  IndexPage.byteSum dataArray = 0%Z.
Proof.
  unfold IndexPage.byteSum.
  induction 1 as [| b rest Hb _ IH]; [reflexivity |].
  subst b; cbn [fold_left]; exact IH.
Qed.

(** With a non-empty analyser buffer the microphone level lies between
    -0.75 and 2.23828125 (an average of 0 and of 255); a silent buffer
    gives -0.75, and the level is 0 exactly at an average of 64. *)
Theorem normalizedLevel_range :
  forall dataArray : list Byte.byte,
    dataArray <> [] ->
    0 <= IndexPage.average dataArray <= 255 /\
    -0.75 <= IndexPage.normalizedLevel dataArray <= 2.23828125 /\
    (Forall (fun b => b = Byte.x00) dataArray ->
     IndexPage.normalizedLevel dataArray = -0.75) /\
    (IndexPage.normalizedLevel dataArray = 0 <->
     IndexPage.average dataArray = 64).
Proof.
  intros dataArray Hnonempty.
  assert (Hlen : 0 < INR (List.length dataArray)).
  { apply lt_0_INR; destruct dataArray; [contradiction | cbn; lia]. }
  pose proof (byteSum_from dataArray 0) as [Hlo Hhi].
  fold (IndexPage.byteSum dataArray) in Hlo, Hhi.
  apply IZR_le in Hlo, Hhi.
  rewrite Z.add_0_l, mult_IZR, <- INR_IZR_INZ in Hhi.
  assert (Havg : 0 <= IndexPage.average dataArray <= 255).
  { unfold IndexPage.average; split.
    - apply Rmult_le_pos; [exact Hlo |].
      left; now apply Rinv_0_lt_compat.
    - apply (Rmult_le_reg_r (INR (List.length dataArray))); [exact Hlen |].
      unfold Rdiv; rewrite Rmult_assoc, Rinv_l by lra; lra. }
  split; [exact Havg |].
  unfold IndexPage.normalizedLevel.
  split; [lra |]; split; [| lra].
  intros Hsilent.
  unfold IndexPage.average; rewrite (byteSum_silent dataArray Hsilent).
  unfold Rdiv; rewrite Rmult_0_l; lra.
Qed.

Lemma normalizedLevel_range_witness :
  [Byte.x00; Byte.x00] <> [] /\
  IndexPage.normalizedLevel [Byte.x00; Byte.x00] = -0.75.
Proof.
  assert (Hne : [Byte.x00; Byte.x00] <> []) by discriminate.
  split; [exact Hne |].
  apply (proj1 (proj2 (proj2 (normalizedLevel_range _ Hne)))).
  repeat constructor.
Defined.

Lemma stateLevel_overall (agentState : AgentState) (rnd rnd_scale : R) :
  0 <= rnd < 1 ->
  -1 <= IndexPage.stateLevel agentState rnd rnd_scale < 1.05.
Proof.
  intros Hrnd; unfold IndexPage.stateLevel.
  destruct (AgentState_eqb agentState speaking);
    [| destruct (AgentState_eqb agentState listening)];
    repeat match goal with
           | |- context [Rlt_dec ?a ?b] => destruct (Rlt_dec a b)
           end; lra.
Qed.

(** One timer tick of the second page, with draws in [0, 1): the new level
    lies in [-1, 1.05), and a state is set only when the switch draw
    exceeds 0.97, always to one of the six agent states. *)
Theorem weightedTick_range :
  forall (agentState : AgentState)
         (rnd_level rnd_scale rnd_switch rnd_state : R),
    0 <= rnd_level < 1 -> 0 <= rnd_state < 1 ->
    let tick :=
      IndexPage.weightedTick agentState rnd_level rnd_scale rnd_switch
        rnd_state in
    -1 <= fst tick < 1.05 /\
    (rnd_switch <= 0.97 -> snd tick = None) /\
    (0.97 < rnd_switch ->
     exists st : AgentState,
       snd tick = Some (Some st) /\ In st IndexPage.states).
Proof.
  intros agentState rnd_level rnd_scale rnd_switch rnd_state Hlevel Hstate.
  cbv zeta; unfold IndexPage.weightedTick; cbn [fst snd].
  split; [now apply stateLevel_overall |].
  destruct (Rlt_dec 0.97 rnd_switch) as [Hswitch | Hkeep]; split;
    try (intros; lra); try reflexivity.
  intros _.
  assert (Hten : INR (List.length IndexPage.weightedStates) = 10).
  { change (List.length IndexPage.weightedStates) with (Z.to_nat 10).
    rewrite INR_IZR_INZ, Z2Nat.id by lia; reflexivity. }
  destruct (bucket_exists
              (rnd_state * INR (List.length IndexPage.weightedStates))
              (List.length IndexPage.weightedStates)) as [k [Hk Hbucket]].
  { rewrite Hten; lra. }
  rewrite (randomElement_bucket IndexPage.weightedStates rnd_state k Hbucket).
  destruct (nth_error IndexPage.weightedStates k) as [st |] eqn:Hnth.
  - exists st; split; [reflexivity |].
    apply nth_error_In in Hnth.
    destruct st; cbn; tauto.
  - apply nth_error_None in Hnth; lia.
Qed.

Lemma weightedTick_range_witness :
  0 <= 0.25 < 1 /\ 0 <= 0.5 < 1 /\
  -1 <= fst (IndexPage.weightedTick listening 0.25 0.95 0.99 0.5) < 1.05.
Proof.
  assert (Hlevel : 0 <= 0.25 < 1) by lra.
  assert (Hstate : 0 <= 0.5 < 1) by lra.
  split; [exact Hlevel |]; split; [exact Hstate |].
  exact (proj1 (weightedTick_range listening 0.25 0.95 0.99 0.5
                  Hlevel Hstate)).
Defined.
